(** * Input-sensitive throttle: a shallow embedding of
      [src/inputSensitiveThrottle.ts]

    The file exports one combinator, [makeInputSensitiveThrottle], which
    composes a memoizer and a throttler so that every distinct input gets
    its own throttled operation.  The combinator is higher-order and
    stateful: the memoizer owns a cache, every throttled operation owns its
    timing state, and the target may have state of its own and may throw.
    We embed it in a state-and-exception monad over an explicit store of
    function objects, and record the calls made to the collaborators in an
    observation trace. *)

From stdpp Require Import base option list gmap strings pretty.
From Stdlib Require Import ZArith Lia.

Set Default Proof Using "Type".

(** ** JavaScript values

    Values are immutable data: numbers (integral), strings, booleans,
    [undefined] and arrays.  In particular the array a closure captured is
    taken to stay as it was built: a target that writes to the array it is
    handed is outside the model.  The rest parameter [...args] of a call is the
    list of its argument values; the array object built from it is
    [VArr args]. *)

#[warnings="-register-all"]
Inductive val :=
| VUndef
| VBool (b : bool)
| VNum (n : Z)
| VStr (s : string)
| VArr (elems : list val).

(** A call either returns a value or throws one. *)
Inductive outcome (A : Type) :=
| Ret (a : A)
| Throw (e : val).
Arguments Ret {A} a.
Arguments Throw {A} e.

(** [String(v)], used by the resolver of the documented example
    ([args.map(String).join(":")]).  A number is printed in decimal, which
    is what [String] gives for integers below 10^21 in absolute value. *)
Fixpoint js_String (v : val) : string :=
  match v with
  | VUndef => "undefined"
  | VBool true => "true"
  | VBool false => "false"
  | VNum n => pretty n
  | VStr s => s
  | VArr l =>
      let elem v := match v with VUndef => "" | _ => js_String v end in
      (fix join (l : list val) : string :=
         match l with
         | [] => ""
         | [v] => elem v
         | v :: r => elem v +:+ "," +:+ join r
         end) l
  end.

Fixpoint js_join (sep : string) (l : list string) : string :=
  match l with
  | [] => ""
  | [s] => s
  | s :: r => s +:+ sep +:+ js_join sep r
  end.

(** ** Function objects in the store

    The memoizer's cache holds throttled operations.  A throttled operation
    is a function object with identity; we refer to it by a handle (its
    index in the store). *)
Abbreviation handle := nat.

(** What the throttler's gate decides when the throttled operation is
    called: run the wrapped operation now, or do not run it and return the
    throttler's own value for a suppressed call. *)
Inductive decision :=
| Invoke
| Suppress (sentinel : val).

(** Modelled from the spec: the throttler collaborator.  It is a parameter
    of the combinator ([throttler: Throttler], lines 59 and 71) and no
    throttler is part of the repository; the source fixes only its shape,
    [(wrapped: () => R) => () => R].  Following the spec ("a new
    zero-argument operation whose invocation is time-gated according to
    some policy", "each throttler instance carries its own independent
    internal timing state") the gating policy is kept abstract: a timing
    state [G] private to each throttled operation, its initial value, the
    decision taken on a call at a given clock reading, the bookkeeping
    after the wrapped operation returned, and what a timer expiry does (a
    trailing-edge invocation, if the policy has one). *)
Record throttle_policy (G : Type) := ThrottlePolicy {
  gate_init : G;
  gate_call : Z -> G -> decision * G;
  gate_done : Z -> val -> G -> G;
  gate_timer : Z -> G -> bool * G
}.
Arguments ThrottlePolicy {G}.
Arguments gate_init {G}.
Arguments gate_call {G}.
Arguments gate_done {G}.
Arguments gate_timer {G}.

(** The zero-argument closures handed to the throttler.  The combinator
    builds only one kind, [() => func(args)] (line 75), which is determined
    by the array [args] it captured. *)
Inductive closure :=
| CallFunc (args : list val).              (* () => func(args) *)

Definition closure_args (op : closure) : list val :=
  match op with CallFunc args => args end.

(** A throttled operation: its timing state and the closure it wraps. *)
Record instance (G : Type) := Instance {
  timing : G;
  operation : closure
}.
Arguments Instance {G}.
Arguments timing {G}.
Arguments operation {G}.

(** The array captured by the closure a throttled operation wraps. *)
Definition captured {G} (i : instance G) : list val :=
  closure_args (operation i).

(** Observations: the calls that cross the boundary between the combinator
    and its collaborators, in the order they happen. *)
Inductive obs :=
| OMemoize (c : nat)                       (* memoizer(f) was called; cache c *)
| OHit (c : nat) (args : list val) (h : handle)  (* memoized fn: cached *)
| OMiss (c : nat) (args : list val)        (* memoized fn: calls f(...args) *)
| OThrottler (h : handle) (args : list val) (* throttler(() => func(args)) *)
| OTrigger (h : handle)                    (* the throttled operation called *)
| OTimer (h : handle)                      (* a timer of h expired *)
| OTarget (argv : list val).               (* func called with arguments argv *)

(** The store. *)
Record world (K : Type) `{Countable K} (T G : Type) := World {
  clock : Z;                          (* the host's clock, in ms *)
  caches : list (gmap K handle);      (* one cache per memoized function *)
  instances : list (instance G);      (* the throttled operations *)
  tstate : T;                         (* the target's own state *)
  trace : list obs
}.
Arguments World {K _ _ T G}.
Arguments clock {K _ _ T G}.
Arguments caches {K _ _ T G}.
Arguments instances {K _ _ T G}.
Arguments tstate {K _ _ T G}.
Arguments trace {K _ _ T G}.

(** What the host does between and around calls. *)
Inductive event :=
| EvWrap                                 (* makeInputSensitiveThrottle(...) *)
| EvCall (c : nat) (args : list val)     (* call the c-th wrapped function *)
| EvAdvance (dt : Z)                     (* the clock moves *)
| EvTimer (h : handle).                  (* a timer of operation h expires *)

(** What the host and the memoizer do between and around calls: a host
    event, or the memoizer dropping the entry of key [k] from its cache
    [c]. *)
Inductive action (K : Type) :=
| Host (e : event)
| Evict (c : nat) (k : K).
Arguments Host {K} e.
Arguments Evict {K} c k.

Section Combinator.
Context {K : Type} `{Countable K} {T G : Type}.

(** The memoizer collaborator ([memoizer: Memoizer], lines 61 and 70) is
    kept abstract in its equality: [resolver] maps an argument list to the
    key under which the result is cached (in the documented example,
    [memoize(fn, (...args) => args.map(String).join(":"))]); two argument
    lists are equal for the memoizer when their keys are. *)
Variable resolver : list val -> K.
Variable policy : throttle_policy G.

(** The target: called with an argument list in a state, it returns or
    throws and leaves a state. *)
Variable func : list val -> T -> outcome val * T.

Local Abbreviation W := (world K T G).

(** *** The monad of stateful, throwing computations *)
Definition M (A : Type) : Type := W -> outcome A * W.

#[local] Instance M_ret : MRet M := fun A a s => (Ret a, s).
#[local] Instance M_bind : MBind M := fun A B f m s =>
  match m s with
  | (Ret a, s') => f a s'
  | (Throw e, s') => (Throw e, s')
  end.

(** Calling something that is not a function. *)
Definition type_error : val := VStr "TypeError".

(** *** Store updates *)
Definition log (o : obs) (s : W) : W :=
  World (clock s) (caches s) (instances s) (tstate s) (trace s ++ [o]).
Definition set_clock (t : Z) (s : W) : W :=
  World t (caches s) (instances s) (tstate s) (trace s).
Definition set_tstate (t : T) (s : W) : W :=
  World (clock s) (caches s) (instances s) t (trace s).
Definition set_caches (cs : list (gmap K handle)) (s : W) : W :=
  World (clock s) cs (instances s) (tstate s) (trace s).
Definition set_instances (l : list (instance G)) (s : W) : W :=
  World (clock s) (caches s) l (tstate s) (trace s).

Definition set_timing (g : G) (i : instance G) : instance G :=
  Instance g (operation i).

Definition emit (o : obs) : M unit := fun s => (Ret tt, log o s).
Definition get_clock : M Z := fun s => (Ret (clock s), s).
Definition get_cache (c : nat) : M (gmap K handle) := fun s =>
  match caches s !! c with
  | Some reg => (Ret reg, s)
  | None => (Throw type_error, s)
  end.
Definition cache_set (c : nat) (k : K) (h : handle) : M unit := fun s =>
  (Ret tt, set_caches (alter (insert k h) c (caches s)) s).
Definition get_instance (h : handle) : M (instance G) := fun s =>
  match instances s !! h with
  | Some i => (Ret i, s)
  | None => (Throw type_error, s)
  end.
Definition upd_timing (h : handle) (f : G -> G) : M unit := fun s =>
  (Ret tt, set_instances (alter (fun i => set_timing (f (timing i)) i) h (instances s)) s).

(** *** The collaborators *)

(** [func(argv)]. *)
Definition call_func (argv : list val) : M val := fun s =>
  let '(r, t) := func argv (tstate s) in
  (r, set_tstate t (log (OTarget argv) s)).

(** Running the closure [() => func(args)] of line 75: [func] receives ONE
    argument, the captured array. *)
Definition run_closure (op : closure) : M val :=
  match op with
  | CallFunc args => call_func [VArr args]
  end.

(** Modelled from the spec: [throttler(op)] returns a new throttled
    operation around [op], in its initial timing state. *)
Definition throttler (op : closure) : M handle := fun s =>
  let h := length (instances s) in
  (Ret h,
   set_instances (instances s ++ [Instance (gate_init policy) op])
     (log (OThrottler h (closure_args op)) s)).

(** Modelled from the spec: calling the throttled operation [h].  The gate
    decides on the clock and on [h]'s own timing state; when it lets the
    call through, the wrapped closure runs and its result (or the error it
    throws) is the result of the call; otherwise the call returns the
    throttler's value for a suppressed call. *)
Definition call_throttled (h : handle) : M val :=
  _ ← emit (OTrigger h);
  i ← get_instance h;
  now ← get_clock;
  let '(d, g) := gate_call policy now (timing i) in
  _ ← upd_timing h (fun _ => g);
  match d with
  | Suppress v => mret v
  | Invoke =>
      v ← run_closure (operation i);
      _ ← upd_timing h (gate_done policy now v);
      mret v
  end.

(** Modelled from the spec: a timer of the throttled operation [h] expires
    (outside any call of the wrapped function); a policy with a trailing
    edge runs the wrapped closure then. *)
Definition timer_fire (h : handle) : M val :=
  _ ← emit (OTimer h);
  i ← get_instance h;
  now ← get_clock;
  let '(b, g) := gate_timer policy now (timing i) in
  _ ← upd_timing h (fun _ => g);
  if b : bool then
    v ← run_closure (operation i);
    _ ← upd_timing h (gate_done policy now v);
    mret v
  else mret VUndef.

(** Modelled from the spec: the function returned by [memoizer(f)], with
    cache [c].  It "returns a cached R for previously seen args (by the
    memoizer's own equality/keying function) and otherwise computes and
    caches a fresh R via fn(args...)". *)
Definition memoized (f : list val -> M handle) (c : nat) (args : list val)
  : M handle :=
  reg ← get_cache c;
  match reg !! resolver args with
  | Some h => _ ← emit (OHit c args h); mret h
  | None =>
      _ ← emit (OMiss c args);
      h ← f args;
      _ ← cache_set c (resolver args) h;
      mret h
  end.

(** Modelled from the spec: [memoizer(f)] returns a new function over a
    new, empty cache. *)
Definition memoizer (f : list val -> M handle) : M (list val -> M handle) :=
  fun s =>
    let c := length (caches s) in
    (Ret (memoized f c), set_caches (caches s ++ [∅]) (log (OMemoize c) s)).

(** *** The combinator (lines 73 to 84) *)

(** Lines 74 to 77. *)
Definition makeThrottleFnForInput (args : list val) : M handle :=
  throttled ← throttler (CallFunc args);
  mret throttled.

(** Lines 79 to 84: the memoizer is applied once, and the function returned
    resolves the throttled operation for its arguments and calls it. *)
Definition makeInputSensitiveThrottle : M (list val -> M val) :=
  throttleFnsCachedByInput ← memoizer makeThrottleFnForInput;
  mret (fun args =>
          throttleFnForInput ← throttleFnsCachedByInput args;
          call_throttled throttleFnForInput).

(** The function returned by [makeInputSensitiveThrottle] when the
    memoizer gave it cache [c] (lemma [make_spec]). *)
Definition wrappedFunction (c : nat) (args : list val) : M val :=
  throttleFnForInput ← memoized makeThrottleFnForInput c args;
  call_throttled throttleFnForInput.

(** *** The host: a run is a sequence of events from the empty store *)

Definition init (t0 : T) : W := World 0%Z [] [] t0 [].

Definition step (e : event) (s : W) : W :=
  match e with
  | EvWrap => snd (makeInputSensitiveThrottle s)
  | EvCall c args => snd (wrappedFunction c args s)
  | EvAdvance dt => set_clock (clock s + dt)%Z s
  | EvTimer h => snd (timer_fire h s)
  end.

Definition run (evs : list event) (s : W) : W :=
  foldl (fun s e => step e s) s evs.

(** *** Eviction

    Modelled from the spec: "eviction/expiry policy is entirely delegated
    to the memoizer", and an instance "lives as long as the memoizer's
    cache retains that entry".  [memoized] itself only adds entries; the
    memoizer dropping one is the separate store update [evict].  The
    throttled operation stays in the store, no longer reachable through
    the cache. *)
Definition evict (c : nat) (k : K) (s : W) : W :=
  set_caches (alter (delete k) c (caches s)) s.

Definition act (a : action K) (s : W) : W :=
  match a with
  | Host e => step e s
  | Evict c k => evict c k s
  end.

Definition play (acts : list (action K)) (s : W) : W :=
  foldl (fun s a => act a s) s acts.

(** Whether [acts] leaves the entry of key [k] in cache [c] alone. *)
Definition retains (c : nat) (k : K) (acts : list (action K)) : bool :=
  forallb (fun a => match a with
                    | Evict c' k' => negb (bool_decide (c' = c ∧ k' = k))
                    | Host _ => true
                    end) acts.

(** *** Reading the store *)

(** The per-input registry of the wrapped function [c]. *)
Definition registry (s : W) (c : nat) : gmap K handle :=
  default ∅ (caches s !! c).

(** The throttled operation a call with [args] resolves to: the cached one,
    or the one that will be created. *)
Definition resolved (c : nat) (args : list val) (s : W) : handle :=
  default (length (instances s)) (registry s c !! resolver args).

(** That operation as it is when its gate is consulted. *)
Definition serving (c : nat) (args : list val) (s : W) : instance G :=
  match registry s c !! resolver args with
  | Some h => default (Instance (gate_init policy) (CallFunc args)) (instances s !! h)
  | None => Instance (gate_init policy) (CallFunc args)
  end.

(** The gate's decision for a call with [args] made in [s]. *)
Definition verdict (c : nat) (args : list val) (s : W) : decision :=
  fst (gate_call policy (clock s) (timing (serving c args s))).

(** What the target does if that call gets through. *)
Definition target_outcome (c : nat) (args : list val) (s : W) : outcome val :=
  fst (func [VArr (captured (serving c args s))] (tstate s)).

(** What consulting the gate of the throttled operation [i] in [s] leads
    to: the outcome of the call, [i]'s next timing state, the target's next
    state, and the target calls observed. *)
Definition gated (i : instance G) (s : W) : outcome val * G * T * list obs :=
  match gate_call policy (clock s) (timing i) with
  | (Suppress v, g) => (Ret v, g, tstate s, [])
  | (Invoke, g) =>
      match func [VArr (captured i)] (tstate s) with
      | (Ret v, t) =>
          (Ret v, gate_done policy (clock s) v g, t, [OTarget [VArr (captured i)]])
      | (Throw e, t) => (Throw e, g, t, [OTarget [VArr (captured i)]])
      end
  end.

(** The same for a timer expiry. *)
Definition timed (i : instance G) (s : W) : outcome val * G * T * list obs :=
  match gate_timer policy (clock s) (timing i) with
  | (false, g) => (Ret VUndef, g, tstate s, [])
  | (true, g) =>
      match func [VArr (captured i)] (tstate s) with
      | (Ret v, t) =>
          (Ret v, gate_done policy (clock s) v g, t, [OTarget [VArr (captured i)]])
      | (Throw e, t) => (Throw e, g, t, [OTarget [VArr (captured i)]])
      end
  end.

(** *** Reading the trace *)

Definition lookup_of (o : obs) : option (nat * list val) :=
  match o with
  | OHit c a _ | OMiss c a => Some (c, a)
  | _ => None
  end.

(** The calls of memoized functions, in order. *)
Definition lookups (tr : list obs) : list (nat * list val) := omap lookup_of tr.

Definition is_miss (c : nat) (k : K) (o : obs) : bool :=
  match o with
  | OMiss c' a => bool_decide (c' = c ∧ resolver a = k)
  | _ => false
  end.

Definition is_throttler (o : obs) : bool :=
  match o with OThrottler _ _ => true | _ => false end.
Definition is_memoize (o : obs) : bool :=
  match o with OMemoize _ => true | _ => false end.

Definition count_obs (p : obs -> bool) (tr : list obs) : nat :=
  length (List.filter p tr).

(** How often the memoized function [c] called its factory for key [k]. *)
Definition factory_calls (c : nat) (k : K) (tr : list obs) : nat :=
  count_obs (is_miss c k) tr.

(** How often [throttler] and [memoizer] were called. *)
Definition throttler_calls (tr : list obs) : nat := count_obs is_throttler tr.
Definition memoizer_calls (tr : list obs) : nat := count_obs is_memoize tr.

Definition target_of (o : obs) : option (list val) :=
  match o with OTarget argv => Some argv | _ => None end.

(** The argument lists the target was called with, in order. *)
Definition target_calls (tr : list obs) : list (list val) := omap target_of tr.

Definition trigger_of (o : obs) : option handle :=
  match o with OTrigger h => Some h | _ => None end.

(** The throttled operations that were called, in order. *)
Definition triggers (tr : list obs) : list handle := omap trigger_of tr.

(** Whether a call of the wrapped function [c] with key [k] is among
    [calls]. *)
Definition key_called (c : nat) (k : K) (calls : list (nat * list val)) : bool :=
  existsb (fun ca => bool_decide (fst ca = c ∧ resolver (snd ca) = k)) calls.

(** How many wrapped functions [evs] constructs. *)
Definition wraps (evs : list event) : nat :=
  length (List.filter (fun e => match e with EvWrap => true | _ => false end) evs).

(** The calls in [evs] that reach an existing wrapped function, when [n]
    wrapped functions exist at the start. *)
Fixpoint calls_of (n : nat) (evs : list event) : list (nat * list val) :=
  match evs with
  | [] => []
  | EvWrap :: r => calls_of (S n) r
  | EvCall c args :: r =>
      if decide (c < n) then (c, args) :: calls_of n r else calls_of n r
  | _ :: r => calls_of n r
  end.

(** *** The invariant of the store

    Every cached handle denotes a throttled operation whose closure
    captured an argument list of that key, and no throttled operation is
    cached twice (under two keys, or by two wrapped functions). *)
Definition wf (s : W) : Prop :=
  (∀ c reg k h, caches s !! c = Some reg → reg !! k = Some h →
     ∃ i, instances s !! h = Some i ∧ resolver (captured i) = k) ∧
  (∀ c1 c2 r1 r2 k1 k2 h,
     caches s !! c1 = Some r1 → r1 !! k1 = Some h →
     caches s !! c2 = Some r2 → r2 !! k2 = Some h →
     c1 = c2 ∧ k1 = k2).

(** One store evolves into another: caches are kept and only gain
    entries, throttled operations are kept with the closure they wrap. *)
Definition evolves (s s' : W) : Prop :=
  (∀ c reg, caches s !! c = Some reg →
     ∃ reg', caches s' !! c = Some reg' ∧ reg ⊆ reg') ∧
  (∀ h i, instances s !! h = Some i →
     ∃ i', instances s' !! h = Some i' ∧ captured i' = captured i).

End Combinator.

(** ** Concrete collaborators and targets *)

(** The resolver of the documented example:
    [(...args) => args.map(String).join(":")]. *)
Definition memoSetup_resolver (args : list val) : string :=
  js_join ":" (map js_String args).

(** A resolver that keys on the first argument only:
    [(...args) => String(args[0])]. *)
Definition first_arg_resolver (args : list val) : string :=
  js_String (default VUndef (head args)).

(** The identity throttler [fn => fn]: every call gets through. *)
Definition no_throttle : throttle_policy unit :=
  ThrottlePolicy tt (fun _ g => (Invoke, g)) (fun _ _ g => g)
    (fun _ g => (false, g)).

(** A leading-edge debounce, in the manner of the documented
    [fn => debounce(fn, wait, { leading: true, trailing: false })]: a call
    gets through when it is the first or at least [wait] ms after the
    previous call (or the clock went back); a suppressed call returns the
    result of the last invocation ([undefined] before the first). *)
Definition debounce_leading (wait : Z) : throttle_policy (option Z * val) :=
  ThrottlePolicy (None, VUndef)
    (fun now '(last, res) =>
       match last with
       | None => (Invoke, (Some now, res))
       | Some t =>
           if ((wait <=? now - t) || (now - t <? 0))%Z
           then (Invoke, (Some now, res))
           else (Suppress res, (Some now, res))
       end)
    (fun _ v '(last, _) => (last, v))
    (fun _ g => (false, g)).

(** A trailing-edge debounce, in the manner of [fn => debounce(fn, wait)]:
    a call never gets through at once; the operation runs when the timer
    expires [wait] ms after the last call. *)
Definition debounce_trailing (wait : Z) : throttle_policy (option Z * val) :=
  ThrottlePolicy (None, VUndef)
    (fun now '(_, res) => (Suppress res, (Some now, res)))
    (fun _ v '(last, _) => (last, v))
    (fun now '(last, res) =>
       match last with
       | Some t => if (wait <=? now - t)%Z then (true, (None, res))
                   else (false, (last, res))
       | None => (false, (last, res))
       end).

(** Targets.  [counter] counts its invocations; [echo] returns the
    argument list it was called with, [(...xs) => xs]; [failing] always
    throws. *)
Definition counter (argv : list val) (n : Z) : outcome val * Z :=
  (Ret (VNum (n + 1)), (n + 1)%Z).

Definition echo (argv : list val) (u : unit) : outcome val * unit :=
  (Ret (VArr argv), u).

Definition failing (argv : list val) (u : unit) : outcome val * unit :=
  (Throw (VStr "boom"), u).

(** ** Properties *)

Section Properties.
Context {K : Type} `{Countable K} {T G : Type}.
Variable resolver : list val -> K.
Variable policy : throttle_policy G.
Variable func : list val -> T -> outcome val * T.

Local Abbreviation W := (world K T G).
Local Abbreviation wrapped := (wrappedFunction resolver policy func).
Local Abbreviation make := (makeInputSensitiveThrottle resolver policy func).
Local Abbreviation fire := (timer_fire policy func).
Local Abbreviation resolve :=
  (memoized resolver (makeThrottleFnForInput policy)).
Local Abbreviation stepW := (step resolver policy func).
Local Abbreviation runW := (run resolver policy func).
Local Abbreviation servingW := (serving resolver policy).
Local Abbreviation resolvedW := (resolved resolver).
Local Abbreviation gatedW := (gated policy func).
Local Abbreviation verdictW := (verdict resolver policy).
Local Abbreviation target_outcomeW := (target_outcome resolver policy func).
Local Abbreviation wfW := (wf resolver).
Local Abbreviation factory_callsW := (factory_calls resolver).
Local Abbreviation key_calledW := (key_called resolver).
Local Abbreviation playW := (play resolver policy func).
Local Abbreviation actW := (act resolver policy func).

Ltac mstep :=
  unfold mbind, M_bind, mret, M_ret, emit, get_clock, get_cache,
    get_instance, upd_timing, cache_set, run_closure, call_func, throttler,
    makeThrottleFnForInput; simpl.

(** *** What each operation does to the store *)

Lemma call_throttled_spec h i (s : W) :
  instances s !! h = Some i ->
  call_throttled policy func h s =
    let '(r, g, t, o) := gatedW i s in
    (r, World (clock s) (caches s)
          (alter (fun j => set_timing g j) h (instances s)) t
          (trace s ++ OTrigger h :: o)).
Proof.
  intros Hi. destruct i as [gi [ai]].
  unfold call_throttled, gated, captured. mstep. rewrite Hi. simpl.
  destruct (gate_call policy (clock s) gi) as [[|v] g]; simpl.
  - destruct (func [VArr ai] (tstate s)) as [[v|e] t]; simpl.
    + unfold set_instances, set_tstate, log; simpl.
      rewrite list_alter_alter_eq, <- app_assoc. reflexivity.
    + unfold set_instances, set_tstate, log; simpl.
      rewrite <- app_assoc. reflexivity.
  - unfold set_instances, log; simpl. reflexivity.
Qed.

Lemma timer_fire_spec h i (s : W) :
  instances s !! h = Some i ->
  fire h s =
    let '(r, g, t, o) := timed policy func i s in
    (r, World (clock s) (caches s)
          (alter (fun j => set_timing g j) h (instances s)) t
          (trace s ++ OTimer h :: o)).
Proof.
  intros Hi. destruct i as [gi [ai]].
  unfold timer_fire, timed, captured. mstep. rewrite Hi. simpl.
  destruct (gate_timer policy (clock s) gi) as [[|] g]; simpl.
  - destruct (func [VArr ai] (tstate s)) as [[v|e] t]; simpl.
    + unfold set_instances, set_tstate, log; simpl.
      rewrite list_alter_alter_eq, <- app_assoc. reflexivity.
    + unfold set_instances, set_tstate, log; simpl.
      rewrite <- app_assoc. reflexivity.
  - unfold set_instances, log; simpl. reflexivity.
Qed.

Lemma timer_fire_dangling h (s : W) :
  instances s !! h = None ->
  fire h s = (Throw type_error, log (OTimer h) s).
Proof. intros Hi. unfold timer_fire. mstep. by rewrite Hi. Qed.

Lemma wrapped_invalid c args (s : W) :
  caches s !! c = None -> wrapped c args s = (Throw type_error, s).
Proof.
  intros Hc. unfold wrappedFunction, memoized. mstep. by rewrite Hc.
Qed.

Lemma wrapped_hit c args (s : W) reg h i :
  caches s !! c = Some reg -> reg !! resolver args = Some h ->
  instances s !! h = Some i ->
  wrapped c args s =
    let '(r, g, t, o) := gatedW i s in
    (r, World (clock s) (caches s)
          (alter (fun j => set_timing g j) h (instances s)) t
          (trace s ++ OHit c args h :: OTrigger h :: o)).
Proof.
  intros Hc Hk Hi. unfold wrappedFunction, memoized. mstep.
  rewrite Hc. simpl. rewrite Hk. simpl.
  rewrite (call_throttled_spec h i) by done.
  unfold gated; simpl.
  destruct (gate_call policy (clock s) (timing i)) as [[|v] g]; simpl;
    [destruct (func [VArr (captured i)] (tstate s)) as [[v|e] t]; simpl|];
    by rewrite <- app_assoc.
Qed.

Lemma wrapped_miss c args (s : W) reg :
  caches s !! c = Some reg -> reg !! resolver args = None ->
  wrapped c args s =
    let h := length (instances s) in
    let i := Instance (gate_init policy) (CallFunc args) in
    let '(r, g, t, o) := gatedW i s in
    (r, World (clock s)
          (alter (insert (resolver args) h) c (caches s))
          (instances s ++ [set_timing g i]) t
          (trace s ++ OMiss c args :: OThrottler h args :: OTrigger h :: o)).
Proof.
  intros Hc Hk. unfold wrappedFunction, memoized. mstep.
  rewrite Hc. simpl. rewrite Hk. simpl.
  rewrite (call_throttled_spec _ (Instance (gate_init policy) (CallFunc args))).
  2:{ simpl. by rewrite lookup_app_r, Nat.sub_diag. }
  unfold gated, captured; simpl.
  destruct (gate_call policy (clock s) (gate_init policy)) as [[|v] g]; simpl;
    [destruct (func [VArr args] (tstate s)) as [[v|e] t]; simpl|];
    rewrite alter_app_r_alt, Nat.sub_diag, <- !app_assoc by done;
    reflexivity.
Qed.

(** Construction: [memoizer] is called once and the wrapped function over
    the new cache is returned. *)
Lemma make_spec (s : W) :
  make s =
    (Ret (wrapped (length (caches s))),
     World (clock s) (caches s ++ [∅]) (instances s) (tstate s)
       (trace s ++ [OMemoize (length (caches s))])).
Proof. reflexivity. Qed.

(** *** The invariant holds in every reachable store *)

Lemma registry_Some (s : W) c k h :
  registry s c !! k = Some h <->
  exists reg, caches s !! c = Some reg /\ reg !! k = Some h.
Proof.
  unfold registry. destruct (caches s !! c) as [reg|]; simpl.
  - split; [eauto|]. by intros (? & [= <-] & ?).
  - rewrite lookup_empty. split; [done|]. by intros (? & ? & ?).
Qed.

Lemma wf_handle_lt (s : W) c reg k h :
  wfW s -> caches s !! c = Some reg -> reg !! k = Some h ->
  h < length (instances s).
Proof.
  intros [HA _] Hc Hk. destruct (HA _ _ _ _ Hc Hk) as (i & Hi & _).
  by eapply lookup_lt_Some.
Qed.

Lemma wf_init (t0 : T) : wfW (init t0 : W).
Proof. split; intros *; simpl; by rewrite lookup_nil. Qed.

Lemma evolves_refl (s : W) : evolves s s.
Proof. split; eauto. Qed.

Lemma evolves_trans (s1 s2 s3 : W) :
  evolves s1 s2 -> evolves s2 s3 -> evolves s1 s3.
Proof.
  intros [C1 I1] [C2 I2]. split.
  - intros c reg Hc. destruct (C1 _ _ Hc) as (r2 & Hc2 & Hsub).
    destruct (C2 _ _ Hc2) as (r3 & Hc3 & Hsub'). exists r3. split; [done|].
    by etrans.
  - intros h i Hi. destruct (I1 _ _ Hi) as (i2 & Hi2 & Hcap).
    destruct (I2 _ _ Hi2) as (i3 & Hi3 & Hcap'). exists i3. split; [done|].
    congruence.
Qed.

(** Changing the timing state of one operation. *)
Lemma retime_ok (s : W) clk g h t tr :
  wfW s ->
  let s' := World clk (caches s)
              (alter (fun j => set_timing g j) h (instances s)) t tr in
  wfW s' /\ evolves s s'.
Proof.
  intros [HA HB] s'.
  assert (Hcap : forall h' i, instances s !! h' = Some i ->
            exists i', instances s' !! h' = Some i' /\ captured i' = captured i).
  { intros h' i Hi. simpl. rewrite list_lookup_alter. case_decide as Hh.
    - subst h'. rewrite Hi. simpl. eauto.
    - eauto. }
  split; [split|split].
  - intros c reg k h' Hc Hk. destruct (HA _ _ _ _ Hc Hk) as (i & Hi & Hr).
    destruct (Hcap _ _ Hi) as (i' & Hi' & Hc'). exists i'. split; [done|].
    congruence.
  - exact HB.
  - intros c reg Hc. exists reg. split; done.
  - exact Hcap.
Qed.

Ltac by_old :=
  match goal with
  | Hold : forall c' r' k h, _ -> _ -> h <> _,
    Hx : ?r !! _ = Some (length _), Hy : _ !! _ = Some ?r |- _ =>
      by destruct (Hold _ _ _ _ Hy Hx eq_refl)
  end.

(** Registering a new operation for a novel key. *)
Lemma register_ok (s : W) clk c reg args g t tr :
  wfW s -> caches s !! c = Some reg -> reg !! resolver args = None ->
  let s' := World clk
              (alter (insert (resolver args) (length (instances s))) c (caches s))
              (instances s ++ [Instance g (CallFunc args)]) t tr in
  wfW s' /\ evolves s s'.
Proof.
  intros Hwf Hc Hk s'. pose proof Hwf as [HA HB].
  assert (Hlook : forall c' r', caches s' !! c' = Some r' ->
     (c' = c /\ r' = <[resolver args := length (instances s)]> reg) \/
     (c' <> c /\ caches s !! c' = Some r')).
  { intros c' r'. simpl. rewrite list_lookup_alter. case_decide as Hcc.
    - subst c'. rewrite Hc. simpl. intros [= <-]. by left.
    - intros ?. right. split; [congruence|done]. }
  assert (Hold : forall c' r' k h, caches s !! c' = Some r' -> r' !! k = Some h ->
     h <> length (instances s)).
  { intros c' r' k h Hc' Hk'. pose proof (wf_handle_lt _ _ _ _ _ Hwf Hc' Hk'). lia. }
  split; [split|split].
  - intros c' r' k h Hc' Hk'. destruct (Hlook _ _ Hc') as [[-> ->]|[Hne Hc'']].
    + rewrite lookup_insert in Hk'. case_decide as Hkk.
      * injection Hk' as <-. subst k. exists (Instance g (CallFunc args)). simpl.
        split; [|done]. by rewrite lookup_app_r, Nat.sub_diag.
      * destruct (HA _ _ _ _ Hc Hk') as (i & Hi & Hr). exists i. split; [|done].
        simpl. by rewrite lookup_app_l by (by eapply lookup_lt_Some).
    + destruct (HA _ _ _ _ Hc'' Hk') as (i & Hi & Hr). exists i. split; [|done].
      simpl. by rewrite lookup_app_l by (by eapply lookup_lt_Some).
  - intros c1 c2 r1 r2 k1 k2 h Hc1 Hk1 Hc2 Hk2.
    destruct (Hlook _ _ Hc1) as [[-> ->]|[Hne1 Hc1']];
      destruct (Hlook _ _ Hc2) as [[-> ->]|[Hne2 Hc2']].
    + rewrite lookup_insert in Hk1, Hk2.
      repeat case_decide; simplify_eq; try done;
        try by_old.
      eapply HB; eassumption.
    + rewrite lookup_insert in Hk1. case_decide; simplify_eq;
        try by_old.
      eapply HB; eassumption.
    + rewrite lookup_insert in Hk2. case_decide; simplify_eq;
        try by_old.
      eapply HB; eassumption.
    + eapply HB; eassumption.
  - intros c' r' Hc'. simpl. rewrite list_lookup_alter. case_decide as Hcc.
    + subst c'. rewrite Hc in *. simplify_eq. simpl. eexists. split; [done|].
      by apply insert_subseteq.
    + eauto.
  - intros h i Hi. exists i. split; [|done]. simpl.
    by rewrite lookup_app_l by (by eapply lookup_lt_Some).
Qed.

Lemma wf_same (s s' : W) :
  caches s' = caches s -> instances s' = instances s ->
  wfW s -> wfW s' /\ evolves s s'.
Proof.
  intros Hc Hi [HA HB]. unfold wf, evolves. rewrite Hc, Hi.
  split; [by split|]. split; eauto.
Qed.

Lemma wrap_ok (s : W) : wfW s -> wfW (stepW EvWrap s) /\ evolves s (stepW EvWrap s).
Proof.
  intros Hwf. pose proof Hwf as [HA HB]. simpl.
  assert (Hlook : forall c r, (caches s ++ [∅]) !! c = Some r ->
            forall k h, r !! k = Some h -> caches s !! c = Some r).
  { intros c r Hc k h Hk. destruct (decide (c < length (caches s))).
    - by rewrite lookup_app_l in Hc.
    - rewrite lookup_app_r in Hc by lia.
      destruct (c - length (caches s)); simpl in Hc; [|done].
      injection Hc as <-. by rewrite lookup_empty in Hk. }
  split; [split|split]; simpl.
  - intros c reg k h Hc Hk. eapply HA; eauto.
  - intros c1 c2 r1 r2 k1 k2 h Hc1 Hk1 Hc2 Hk2. eapply HB; eauto.
  - intros c reg Hc. exists reg. split; [|done].
    by rewrite lookup_app_l by (by eapply lookup_lt_Some).
  - eauto.
Qed.

Lemma call_ok (s : W) c args :
  wfW s -> wfW (snd (wrapped c args s)) /\ evolves s (snd (wrapped c args s)).
Proof.
  intros Hwf. destruct (caches s !! c) as [reg|] eqn:Hc.
  - destruct (reg !! resolver args) as [h|] eqn:Hk.
    + destruct (proj1 Hwf _ _ _ _ Hc Hk) as (i & Hi & _).
      rewrite (wrapped_hit _ _ _ _ _ _ Hc Hk Hi).
      destruct (gatedW i s) as [[[r g] t] o]. simpl. by apply retime_ok.
    + rewrite (wrapped_miss _ _ _ _ Hc Hk). simpl.
      destruct (gatedW _ s) as [[[r g] t] o]. simpl.
      by eapply register_ok.
  - rewrite wrapped_invalid by done. simpl. split; [done|apply evolves_refl].
Qed.

Lemma timer_ok (s : W) h :
  wfW s -> wfW (snd (fire h s)) /\ evolves s (snd (fire h s)).
Proof.
  intros Hwf. destruct (instances s !! h) as [i|] eqn:Hi.
  - rewrite (timer_fire_spec _ _ _ Hi).
    destruct (timed policy func i s) as [[[r g] t] o]. simpl. by apply retime_ok.
  - rewrite timer_fire_dangling by done. simpl. by apply wf_same.
Qed.

Lemma step_ok e (s : W) : wfW s -> wfW (stepW e s) /\ evolves s (stepW e s).
Proof.
  intros Hwf. destruct e as [|c args|dt|h].
  - by apply wrap_ok.
  - by apply call_ok.
  - simpl. by apply wf_same.
  - by apply timer_ok.
Qed.

Lemma run_ok evs (s : W) : wfW s -> wfW (runW evs s) /\ evolves s (runW evs s).
Proof.
  revert s. induction evs as [|e evs IH]; intros s Hwf; simpl.
  - split; [done|apply evolves_refl].
  - destruct (step_ok e s Hwf) as [Hwf1 Hev1].
    destruct (IH _ Hwf1) as [Hwf2 Hev2]. split; [done|].
    by eapply evolves_trans.
Qed.

Lemma reachable_wf evs (t0 : T) : wfW (runW evs (init t0)).
Proof. apply run_ok, wf_init. Qed.

(** *** A call of the wrapped function, in one equation *)

Lemma valid_cache (s : W) c :
  c < length (caches s) -> caches s !! c = Some (registry s c).
Proof.
  intros Hc. unfold registry.
  destruct (lookup_lt_is_Some_2 _ _ Hc) as [reg ->]. reflexivity.
Qed.

Lemma wrapped_spec c args (s : W) :
  wfW s -> c < length (caches s) ->
  wrapped c args s =
    let h := resolvedW c args s in
    let i := servingW c args s in
    let '(r, g, t, o) := gatedW i s in
    (r, World (clock s)
          (match registry s c !! resolver args with
           | Some _ => caches s
           | None => alter (insert (resolver args) h) c (caches s)
           end)
          (match registry s c !! resolver args with
           | Some _ => alter (fun j => set_timing g j) h (instances s)
           | None => instances s ++ [set_timing g i]
           end)
          t
          (trace s ++
           match registry s c !! resolver args with
           | Some _ => [OHit c args h]
           | None => [OMiss c args; OThrottler h args]
           end ++ OTrigger h :: o)).
Proof.
  intros Hwf Hc. pose proof (valid_cache _ _ Hc) as Hreg.
  unfold resolved, serving.
  destruct (registry s c !! resolver args) as [h|] eqn:Hk; simpl.
  - destruct (proj1 Hwf _ _ _ _ Hreg Hk) as (i & Hi & _).
    rewrite Hi. simpl. by rewrite (wrapped_hit _ _ _ _ _ _ Hreg Hk Hi).
  - by rewrite (wrapped_miss _ _ _ _ Hreg Hk).
Qed.

Lemma gated_verdict c args (s : W) :
  match verdictW c args s with
  | Invoke =>
      exists g, gatedW (servingW c args s) s =
        (target_outcomeW c args s, g,
         snd (func [VArr (captured (servingW c args s))] (tstate s)),
         [OTarget [VArr (captured (servingW c args s))]])
  | Suppress v =>
      exists g, gatedW (servingW c args s) s = (Ret v, g, tstate s, [])
  end.
Proof.
  unfold verdict, target_outcome, gated.
  destruct (gate_call policy (clock s) (timing (servingW c args s)))
    as [[|v] g]; simpl; [|by eauto].
  destruct (func [VArr (captured (servingW c args s))] (tstate s))
    as [[v|e] t]; simpl; eauto.
Qed.

Lemma target_calls_app tr1 tr2 :
  target_calls (tr1 ++ tr2) = target_calls tr1 ++ target_calls tr2.
Proof. apply omap_app. Qed.

(** *** What a call leaves untouched *)

Lemma registry_after_call c args (s : W) c' :
  wfW s -> c < length (caches s) ->
  registry (snd (wrapped c args s)) c' =
    match registry s c !! resolver args with
    | Some _ => registry s c'
    | None =>
        if decide (c' = c)
        then <[resolver args := length (instances s)]> (registry s c)
        else registry s c'
    end.
Proof.
  intros Hwf Hc. rewrite wrapped_spec by done. simpl.
  destruct (gatedW _ s) as [[[r g] t] o]. unfold resolved, registry at 1. simpl.
  destruct (registry s c !! resolver args) as [h|] eqn:Hk; simpl; [done|].
  rewrite list_lookup_alter. case_decide as Hcc.
  - subst c'. rewrite decide_True by done.
    by rewrite (valid_cache _ _ Hc).
  - rewrite decide_False by congruence. done.
Qed.

Lemma instances_after_call c args (s : W) h :
  wfW s -> c < length (caches s) -> h <> resolvedW c args s ->
  instances (snd (wrapped c args s)) !! h = instances s !! h.
Proof.
  intros Hwf Hc Hh. rewrite wrapped_spec by done. simpl.
  destruct (gatedW _ s) as [[[r g] t] o]. simpl. revert Hh. unfold resolved.
  destruct (registry s c !! resolver args) as [h'|] eqn:Hk; simpl; intros Hh.
  - by rewrite list_lookup_alter_ne.
  - destruct (decide (h < length (instances s))).
    + by rewrite lookup_app_l.
    + rewrite lookup_app_r by lia.
      rewrite (lookup_ge_None_2 (instances s)) by lia.
      destruct (h - length (instances s)) eqn:?; [lia|done].
Qed.

Lemma clock_after_call c args (s : W) :
  clock (snd (wrapped c args s)) = clock s.
Proof.
  destruct (caches s !! c) as [reg|] eqn:Hc; [|by rewrite wrapped_invalid].
  destruct (reg !! resolver args) as [h|] eqn:Hk.
  - unfold wrappedFunction, memoized, call_throttled. mstep.
    rewrite Hc; simpl. rewrite Hk; simpl.
    destruct (instances s !! h) as [[gi [ai]]|]; simpl; [|done].
    destruct (gate_call policy (clock s) gi) as [[|v] g]; simpl; [|done].
    by destruct (func [VArr ai] (tstate s)) as [[v|e] t].
  - rewrite (wrapped_miss _ _ _ _ Hc Hk). simpl.
    by destruct (gatedW _ s) as [[[r g] t] o].
Qed.

(** The operation serving a key is determined by the registry entry and
    the stored instance. *)
Lemma serving_ext c args (s s' : W) :
  registry s' c !! resolver args = registry s c !! resolver args ->
  (forall h, registry s c !! resolver args = Some h ->
     instances s' !! h = instances s !! h) ->
  servingW c args s' = servingW c args s.
Proof.
  intros Hr Hi. unfold serving. rewrite Hr.
  destruct (registry s c !! resolver args) as [h|]; [|done].
  by rewrite Hi.
Qed.

Lemma verdict_ext c args (s s' : W) :
  clock s' = clock s -> servingW c args s' = servingW c args s ->
  verdictW c args s' = verdictW c args s.
Proof. intros Hc Hs. unfold verdict. by rewrite Hc, Hs. Qed.

(** Two registry entries with the same handle are the same entry. *)
Lemma registry_inj (s : W) c1 k1 c2 k2 h :
  wfW s -> registry s c1 !! k1 = Some h -> registry s c2 !! k2 = Some h ->
  c1 = c2 /\ k1 = k2.
Proof.
  intros [_ HB] (r1 & Hc1 & Hk1)%registry_Some (r2 & Hc2 & Hk2)%registry_Some.
  eapply HB; eassumption.
Qed.

Lemma registry_lt (s : W) c k h :
  wfW s -> registry s c !! k = Some h -> h < length (instances s).
Proof.
  intros Hwf (r & Hc & Hk)%registry_Some. by eapply wf_handle_lt.
Qed.

(** A call for one key of one wrapped function does not touch what serves
    any other key or any other wrapped function. *)
Lemma call_frame c args (s : W) c' args' :
  wfW s -> c < length (caches s) ->
  c' <> c \/ resolver args' <> resolver args ->
  let s' := snd (wrapped c args s) in
  registry s' c' !! resolver args' = registry s c' !! resolver args' /\
  servingW c' args' s' = servingW c' args' s /\
  verdictW c' args' s' = verdictW c' args' s.
Proof.
  intros Hwf Hc Hne s'.
  assert (Hreg : registry s' c' !! resolver args' = registry s c' !! resolver args').
  { unfold s'. rewrite registry_after_call by done.
    destruct (registry s c !! resolver args); [done|].
    case_decide; [|done]. subst c'. rewrite lookup_insert_ne; [done|].
    destruct Hne; congruence. }
  assert (Hserv : servingW c' args' s' = servingW c' args' s).
  { apply serving_ext; [done|]. intros h Hh.
    apply instances_after_call; [done..|]. unfold resolved.
    destruct (registry s c !! resolver args) as [h0|] eqn:Hk; simpl.
    - intros ->. destruct (registry_inj _ _ _ _ _ _ Hwf Hh Hk) as [-> Hkk].
      destruct Hne; congruence.
    - pose proof (registry_lt _ _ _ _ Hwf Hh). lia. }
  split; [done|]. split; [done|].
  apply verdict_ext; [apply clock_after_call|done].
Qed.

(** After a call, its key is in the registry with the operation the call
    resolved to. *)
Lemma registered_after_call c args (s : W) :
  wfW s -> c < length (caches s) ->
  registry (snd (wrapped c args s)) c !! resolver args
    = Some (resolvedW c args s).
Proof.
  intros Hwf Hc. rewrite registry_after_call by done. unfold resolved.
  destruct (registry s c !! resolver args) as [h|] eqn:Hk; simpl; [done|].
  rewrite decide_True by done. by rewrite lookup_insert_eq.
Qed.

Lemma length_caches_after_call c args (s : W) :
  wfW s -> length (caches (snd (wrapped c args s))) = length (caches s).
Proof.
  intros Hwf. destruct (decide (c < length (caches s))) as [Hc|Hc].
  - rewrite wrapped_spec by done. cbv zeta.
    destruct (gatedW _ s) as [[[r g] t] o]. simpl.
    destruct (registry s c !! resolver args); [done|]. by rewrite length_alter.
  - by rewrite wrapped_invalid by (apply lookup_ge_None_2; lia).
Qed.

(** Validity of a wrapped function is kept by every run. *)
Lemma valid_evolves (s s' : W) c :
  evolves s s' -> c < length (caches s) -> c < length (caches s').
Proof.
  intros [Hev _] Hc. destruct (lookup_lt_is_Some_2 _ _ Hc) as [reg Hreg].
  destruct (Hev _ _ Hreg) as (reg' & Hreg' & _). by eapply lookup_lt_Some.
Qed.

(** A timer expiry touches the timing state of its own operation only. *)
Lemma timer_frame h (s : W) :
  caches (snd (fire h s)) = caches s /\
  clock (snd (fire h s)) = clock s /\
  (forall h', h' <> h -> instances (snd (fire h s)) !! h' = instances s !! h').
Proof.
  destruct (instances s !! h) as [i|] eqn:Hi.
  - rewrite (timer_fire_spec _ _ _ Hi).
    destruct (timed policy func i s) as [[[r g] t] o]. simpl.
    split; [done|]. split; [done|]. intros h' Hh.
    by rewrite list_lookup_alter_ne.
  - by rewrite timer_fire_dangling.
Qed.

(** Resolution never fails for an existing wrapped function, and the call
    is the resolved operation called in the store resolution left. *)
Lemma resolve_then_call c args (s : W) :
  c < length (caches s) ->
  fst (resolve c args s) = Ret (resolvedW c args s) /\
  wrapped c args s =
    call_throttled policy func (resolvedW c args s) (snd (resolve c args s)).
Proof.
  intros Hc. pose proof (valid_cache _ _ Hc) as Hreg.
  unfold wrappedFunction, memoized, resolved. mstep. rewrite Hreg. simpl.
  by destruct (registry s c !! resolver args).
Qed.

(** What a call adds to the trace. *)
Lemma trace_after_call c args (s : W) :
  wfW s -> c < length (caches s) ->
  trace (snd (wrapped c args s)) =
    trace s ++
    match registry s c !! resolver args with
    | Some h => [OHit c args h]
    | None => [OMiss c args; OThrottler (length (instances s)) args]
    end ++
    OTrigger (resolvedW c args s) ::
    match verdictW c args s with
    | Invoke => [OTarget [VArr (captured (servingW c args s))]]
    | Suppress _ => []
    end.
Proof.
  intros Hwf Hc. rewrite wrapped_spec by done.
  pose proof (gated_verdict c args s) as Hg.
  unfold resolved.
  destruct (verdictW c args s) as [|v]; destruct Hg as [g ->]; simpl;
    by destruct (registry s c !! resolver args).
Qed.

(** *** Reading the trace of a run *)

Lemma count_obs_app p tr1 tr2 :
  count_obs p (tr1 ++ tr2) = count_obs p tr1 + count_obs p tr2.
Proof.
  unfold count_obs. induction tr1 as [|o tr1 IH]; simpl; [done|].
  destruct (p o); simpl; by rewrite IH.
Qed.

Lemma lookups_app tr1 tr2 : lookups (tr1 ++ tr2) = lookups tr1 ++ lookups tr2.
Proof. apply omap_app. Qed.

Lemma triggers_app tr1 tr2 :
  triggers (tr1 ++ tr2) = triggers tr1 ++ triggers tr2.
Proof. apply omap_app. Qed.

Lemma trace_after_timer h (s : W) :
  exists o, trace (snd (fire h s)) = trace s ++ OTimer h :: o /\
            (o = [] \/ exists a, o = [OTarget [VArr a]]).
Proof.
  destruct (instances s !! h) as [i|] eqn:Hi.
  - rewrite (timer_fire_spec _ _ _ Hi). unfold timed.
    destruct (gate_timer policy (clock s) (timing i)) as [[|] g]; simpl;
      [destruct (func [VArr (captured i)] (tstate s)) as [[v|e] t]; simpl|];
      eauto.
  - rewrite timer_fire_dangling by done. simpl. eauto.
Qed.

Lemma calls_of_cons n e evs :
  calls_of n (e :: evs) = calls_of n [e] ++ calls_of (n + wraps [e]) evs.
Proof.
  destruct e as [|c args|dt|h]; simpl; rewrite ?Nat.add_0_r, ?Nat.add_1_r;
    try done.
  by case_decide.
Qed.

Lemma wraps_cons e evs : wraps (e :: evs) = wraps [e] + wraps evs.
Proof. unfold wraps. by destruct e. Qed.

Lemma length_caches_step e (s : W) :
  wfW s -> length (caches (stepW e s)) = length (caches s) + wraps [e].
Proof.
  intros Hwf. destruct e as [|c args|dt|h]; simpl.
  - by rewrite length_app.
  - change (wraps [EvCall c args]) with 0.
    rewrite length_caches_after_call by done. lia.
  - change (wraps [EvAdvance dt]) with 0. lia.
  - change (wraps [EvTimer h]) with 0.
    destruct (timer_frame h s) as [-> _]. lia.
Qed.

Lemma lookups_step e (s : W) :
  wfW s ->
  lookups (trace (stepW e s)) =
    lookups (trace s) ++ calls_of (length (caches s)) [e].
Proof.
  intros Hwf. destruct e as [|c args|dt|h]; simpl.
  - by rewrite lookups_app.
  - case_decide as Hc.
    + rewrite trace_after_call, !lookups_app by done. f_equal.
      destruct (registry s c !! resolver args); simpl;
        by destruct (verdictW c args s).
    + rewrite wrapped_invalid by (apply lookup_ge_None_2; lia).
      by rewrite app_nil_r.
  - by rewrite app_nil_r.
  - destruct (trace_after_timer h s) as (o & -> & [->|[argv ->]]);
      by rewrite lookups_app.
Qed.

Lemma memoizer_calls_step e (s : W) :
  wfW s ->
  memoizer_calls (trace (stepW e s)) = memoizer_calls (trace s) + wraps [e].
Proof.
  intros Hwf. unfold memoizer_calls. destruct e as [|c args|dt|h]; simpl.
  - by rewrite count_obs_app.
  - change (wraps [EvCall c args]) with 0. rewrite Nat.add_0_r.
    destruct (decide (c < length (caches s))) as [Hc|Hc].
    + rewrite trace_after_call, !count_obs_app by done.
      destruct (registry s c !! resolver args); simpl;
        destruct (verdictW c args s); simpl; unfold count_obs; simpl; lia.
    + by rewrite wrapped_invalid by (apply lookup_ge_None_2; lia).
  - change (wraps [EvAdvance dt]) with 0. lia.
  - change (wraps [EvTimer h]) with 0.
    destruct (trace_after_timer h s) as (o & -> & [->|[argv ->]]);
      rewrite count_obs_app; unfold count_obs; simpl; lia.
Qed.

Lemma lookups_run evs (s : W) :
  wfW s ->
  lookups (trace (runW evs s)) =
    lookups (trace s) ++ calls_of (length (caches s)) evs.
Proof.
  revert s. induction evs as [|e evs IH]; intros s Hwf.
  - simpl. by rewrite app_nil_r.
  - rewrite calls_of_cons. change (runW (e :: evs) s) with (runW evs (stepW e s)).
    destruct (step_ok e s Hwf) as [Hwf' _].
    rewrite IH, lookups_step, length_caches_step by done.
    by rewrite app_assoc.
Qed.

Lemma memoizer_calls_run evs (s : W) :
  wfW s ->
  memoizer_calls (trace (runW evs s)) = memoizer_calls (trace s) + wraps evs.
Proof.
  revert s. induction evs as [|e evs IH]; intros s Hwf.
  - simpl. unfold wraps. simpl. lia.
  - rewrite wraps_cons. change (runW (e :: evs) s) with (runW evs (stepW e s)).
    destruct (step_ok e s Hwf) as [Hwf' _].
    rewrite IH, memoizer_calls_step by done. lia.
Qed.

Lemma triggers_after_call c args (s : W) :
  wfW s -> c < length (caches s) ->
  triggers (trace (snd (wrapped c args s))) =
    triggers (trace s) ++ [resolvedW c args s].
Proof.
  intros Hwf Hc. rewrite trace_after_call, !triggers_app by done. f_equal.
  destruct (registry s c !! resolver args); simpl;
    by destruct (verdictW c args s).
Qed.

(** In every run, every call of the target hands it exactly one argument,
    an array. *)
Lemma target_calls_step e (s : W) :
  wfW s ->
  exists l, target_calls (trace (stepW e s)) = target_calls (trace s) ++ l /\
            Forall (fun argv => exists a, argv = [VArr a]) l.
Proof.
  intros Hwf. destruct e as [|c args|dt|h]; simpl.
  - exists []. by rewrite target_calls_app.
  - destruct (decide (c < length (caches s))) as [Hc|Hc].
    + rewrite trace_after_call, !target_calls_app by done.
      eexists. split; [reflexivity|].
      destruct (registry s c !! resolver args); simpl;
        destruct (verdictW c args s); simpl; repeat constructor; eauto.
    + rewrite wrapped_invalid by (apply lookup_ge_None_2; lia).
      exists []. by rewrite app_nil_r.
  - exists []. by rewrite app_nil_r.
  - destruct (trace_after_timer h s) as (o & -> & [->|[a ->]]);
      rewrite target_calls_app; eexists; (split; [reflexivity|]); simpl;
      repeat constructor; eauto.
Qed.

Lemma target_gets_one_array evs (t0 : T) :
  Forall (fun argv => exists a, argv = [VArr a])
    (target_calls (trace (runW evs (init t0)))).
Proof.
  assert (Hgen : forall (s : W), wfW s ->
            Forall (fun argv => exists a, argv = [VArr a])
              (target_calls (trace s)) ->
            Forall (fun argv => exists a, argv = [VArr a])
              (target_calls (trace (runW evs s)))).
  { induction evs as [|e evs IH]; intros s Hwf HF; [done|].
    change (runW (e :: evs) s) with (runW evs (stepW e s)).
    destruct (step_ok e s Hwf) as [Hwf' _].
    apply IH; [done|].
    destruct (target_calls_step e s Hwf) as (l & -> & Hl).
    by apply Forall_app. }
  apply Hgen; [apply wf_init|]. constructor.
Qed.

(** Registry entries and wrapped closures are kept along a run. *)
Lemma retained_run evs (s : W) c k h :
  wfW s -> registry s c !! k = Some h ->
  registry (runW evs s) c !! k = Some h.
Proof.
  intros Hwf (reg & Hcr & Hkr)%registry_Some.
  destruct (run_ok evs s Hwf) as [_ [Hev _]].
  destruct (Hev _ _ Hcr) as (reg' & Hcr' & Hsub).
  apply registry_Some. exists reg'. split; [done|].
  by apply (lookup_weaken _ _ _ _ Hkr Hsub).
Qed.

Lemma captured_run evs (s : W) h i :
  wfW s -> instances s !! h = Some i ->
  exists i', instances (runW evs s) !! h = Some i' /\ captured i' = captured i.
Proof.
  intros Hwf Hi. destruct (run_ok evs s Hwf) as [_ [_ Hev]]. by apply Hev.
Qed.

(** First capture: the closure wrapped for a key is the one built by the
    call that found the key novel, and it is what every later call with an
    equal key runs.  The target is handed that call's array [args1], as
    its only argument. *)
Lemma first_capture evs0 (t0 : T) c args1 evs args2 :
  let s0 := runW evs0 (init t0) in
  let s1 := snd (wrapped c args1 s0) in
  let s2 := runW evs s1 in
  let s3 := snd (wrapped c args2 s2) in
  c < length (caches s0) ->
  registry s0 c !! resolver args1 = None ->
  resolver args1 = resolver args2 ->
  captured (servingW c args2 s2) = args1 /\
  target_calls (trace s3) =
    target_calls (trace s2) ++
    match verdictW c args2 s2 with
    | Invoke => [[VArr args1]]
    | Suppress _ => []
    end.
Proof.
  intros s0 s1 s2 s3 Hc Hk Hkk.
  pose proof (reachable_wf evs0 t0) as Hwf0. fold s0 in Hwf0.
  destruct (call_ok s0 c args1 Hwf0) as [Hwf1 Hev1]. fold s1 in Hwf1, Hev1.
  destruct (run_ok evs s1 Hwf1) as [Hwf2 Hev2]. fold s2 in Hwf2, Hev2.
  assert (Hc2 : c < length (caches s2)).
  { eapply valid_evolves; [exact Hev2|]. by eapply valid_evolves. }
  pose proof (registered_after_call c args1 s0 Hwf0 Hc) as Hreg1.
  fold s1 in Hreg1. unfold resolved in Hreg1. rewrite Hk in Hreg1.
  simpl in Hreg1.
  assert (Hi1 : exists i, instances s1 !! length (instances s0) = Some i
                          /\ captured i = args1).
  { unfold s1. rewrite wrapped_spec by done. cbv zeta.
    destruct (gatedW _ s0) as [[[r g] t] o]. simpl. rewrite Hk.
    eexists. rewrite lookup_app_r, Nat.sub_diag by done.
    split; [reflexivity|]. unfold serving. by rewrite Hk. }
  destruct Hi1 as (i1 & Hi1 & Hcap1).
  destruct (captured_run evs s1 _ _ Hwf1 Hi1) as (i2 & Hi2 & Hcap2).
  pose proof (retained_run evs s1 _ _ _ Hwf1 Hreg1) as Hreg2. fold s2 in Hreg2.
  rewrite Hkk in Hreg2.
  assert (Hs : servingW c args2 s2 = i2).
  { unfold serving. fold s2 in Hi2. by rewrite Hreg2, Hi2. }
  split; [by rewrite Hs, Hcap2|].
  unfold s3. rewrite trace_after_call, !target_calls_app by done.
  rewrite Hs, Hcap2, Hcap1, Hreg2. simpl.
  by destruct (verdictW c args2 s2).
Qed.

(** *** Counting the calls of the factory *)

Lemma registry_wrap (s : W) c : registry (stepW EvWrap s) c = registry s c.
Proof.
  unfold registry. simpl. destruct (decide (c < length (caches s))).
  - by rewrite lookup_app_l.
  - rewrite lookup_app_r by lia. rewrite (lookup_ge_None_2 (caches s)) by lia.
    by destruct (c - length (caches s)) as [|[|?]].
Qed.

Lemma registry_timer (s : W) h c : registry (stepW (EvTimer h) s) c = registry s c.
Proof. unfold registry. simpl. by destruct (timer_frame h s) as [-> _]. Qed.

(** The factory has been called once for the keys in the registry and not
    at all for the others. *)
Lemma factory_calls_step e (s : W) :
  wfW s ->
  (forall c k, factory_callsW c k (trace s) =
                 if registry s c !! k is Some _ then 1 else 0) ->
  forall c k, factory_callsW c k (trace (stepW e s)) =
                if registry (stepW e s) c !! k is Some _ then 1 else 0.
Proof.
  intros Hwf HJ c k. unfold factory_calls in *.
  destruct e as [|c' a|dt|h].
  - rewrite registry_wrap. simpl. rewrite count_obs_app, HJ.
    unfold count_obs. simpl. lia.
  - simpl. destruct (decide (c' < length (caches s))) as [Hc|Hc].
    2:{ rewrite wrapped_invalid by (apply lookup_ge_None_2; lia). apply HJ. }
    rewrite trace_after_call, registry_after_call by done.
    rewrite !count_obs_app, HJ.
    assert (Htail : count_obs (is_miss resolver c k)
              (OTrigger (resolvedW c' a s) ::
               match verdictW c' a s with
               | Invoke => [OTarget [VArr (captured (servingW c' a s))]]
               | Suppress _ => []
               end) = 0) by by destruct (verdictW c' a s).
    rewrite Htail. clear Htail.
    destruct (registry s c' !! resolver a) as [h|] eqn:Hk.
    + unfold count_obs. simpl. lia.
    + unfold count_obs. simpl. case_decide as Hcc.
      * subst c'. rewrite lookup_insert.
        case_bool_decide as Hb; case_decide as Hd; simpl.
        -- subst k. rewrite Hk. reflexivity.
        -- by destruct Hb.
        -- by destruct Hb.
        -- lia.
      * rewrite bool_decide_eq_false_2 by (by intros [? _]). simpl. lia.
  - simpl. apply HJ.
  - rewrite registry_timer. simpl.
    destruct (trace_after_timer h s) as (o & -> & [->|[argv ->]]);
      rewrite count_obs_app, HJ; unfold count_obs; simpl; lia.
Qed.

Lemma factory_calls_run evs (s : W) :
  wfW s ->
  (forall c k, factory_callsW c k (trace s) =
                 if registry s c !! k is Some _ then 1 else 0) ->
  forall c k, factory_callsW c k (trace (runW evs s)) =
                if registry (runW evs s) c !! k is Some _ then 1 else 0.
Proof.
  revert s. induction evs as [|e evs IH]; intros s Hwf HJ; [done|].
  change (runW (e :: evs) s) with (runW evs (stepW e s)).
  destruct (step_ok e s Hwf) as [Hwf' _].
  apply IH; [done|]. by apply factory_calls_step.
Qed.

(** A key is in the registry exactly when it was there before or a call
    with that key reached the wrapped function. *)
Lemma registered_step e (s : W) c k :
  wfW s ->
  is_Some (registry (stepW e s) c !! k) <->
  is_Some (registry s c !! k) \/
  key_calledW c k (calls_of (length (caches s)) [e]) = true.
Proof.
  intros Hwf. destruct e as [|c' a|dt|h].
  - rewrite registry_wrap. simpl. by intuition.
  - simpl. case_decide as Hc.
    2:{ rewrite wrapped_invalid by (apply lookup_ge_None_2; lia). simpl.
        by intuition. }
    rewrite registry_after_call by done. simpl. rewrite orb_false_r.
    rewrite bool_decide_eq_true.
    destruct (registry s c' !! resolver a) as [h|] eqn:Hk.
    + split; [by left|]. intros [?|[-> <-]]; [done|]. by rewrite Hk.
    + case_decide as Hcc.
      * subst c'. rewrite lookup_insert. case_decide as Hkk.
        -- subst k. split; [by right|]. by intros _.
        -- split; [by left|]. intros [?|[_ ?]]; done.
      * split; [by left|]. intros [?|[? _]]; [done|congruence].
  - simpl. by intuition.
  - rewrite registry_timer. simpl. by intuition.
Qed.

Lemma key_called_app c k l1 l2 :
  key_calledW c k (l1 ++ l2) = key_calledW c k l1 || key_calledW c k l2.
Proof. apply existsb_app. Qed.

Lemma registered_run evs (s : W) c k :
  wfW s ->
  is_Some (registry (runW evs s) c !! k) <->
  is_Some (registry s c !! k) \/
  key_calledW c k (calls_of (length (caches s)) evs) = true.
Proof.
  revert s. induction evs as [|e evs IH]; intros s Hwf.
  - simpl. by intuition.
  - change (runW (e :: evs) s) with (runW evs (stepW e s)).
    destruct (step_ok e s Hwf) as [Hwf' _].
    rewrite (calls_of_cons _ e evs), key_called_app, orb_true_iff.
    rewrite IH, registered_step, length_caches_step by done. tauto.
Qed.

(** A call whose key is in the registry, in any store at all. *)
Lemma hit_in_any_store c args (s : W) h i :
  registry s c !! resolver args = Some h -> instances s !! h = Some i ->
  caches (snd (wrapped c args s)) = caches s /\
  exists o, trace (snd (wrapped c args s))
              = trace s ++ OHit c args h :: OTrigger h :: o /\
            (o = [] \/ exists argv, o = [OTarget argv]).
Proof.
  intros (reg & Hc & Hk)%registry_Some Hi.
  rewrite (wrapped_hit _ _ _ _ _ _ Hc Hk Hi). unfold gated.
  destruct (gate_call policy (clock s) (timing i)) as [[|v] g]; simpl;
    [destruct (func [VArr (captured i)] (tstate s)) as [[v|e] t]; simpl|];
    (split; [reflexivity|]); eexists; (split; [reflexivity|]); eauto.
Qed.

(** *** The properties of the combinator *)

(** C2. In every reachable store and for every call of a wrapped function:
    the call returns what the throttled operation it resolved to returns,
    nothing else.  So when the gate lets the call through, the call
    returns (or throws) exactly what the target returns (or throws) for
    this invocation, and the target is called once; when the gate
    suppresses the call, the call returns the value the throttled
    operation gives for a suppressed call, and the target is neither
    called nor does its state change. *)
Theorem pass_through_return_value evs (t0 : T) c args :
  let s := runW evs (init t0) in
  c < length (caches s) ->
  wrapped c args s =
    call_throttled policy func (resolvedW c args s) (snd (resolve c args s)) /\
  match verdictW c args s with
  | Invoke =>
      fst (wrapped c args s) = target_outcomeW c args s /\
      target_calls (trace (snd (wrapped c args s))) =
        target_calls (trace s) ++ [[VArr (captured (servingW c args s))]] /\
      tstate (snd (wrapped c args s)) =
        snd (func [VArr (captured (servingW c args s))] (tstate s))
  | Suppress v =>
      fst (wrapped c args s) = Ret v /\
      target_calls (trace (snd (wrapped c args s))) = target_calls (trace s) /\
      tstate (snd (wrapped c args s)) = tstate s
  end.
Proof.
  intros s Hc. pose proof (reachable_wf evs t0) as Hwf. fold s in Hwf.
  split; [by apply resolve_then_call|].
  pose proof (trace_after_call c args s Hwf Hc) as Htr.
  pose proof (wrapped_spec c args s Hwf Hc) as Hspec. cbv zeta in Hspec.
  pose proof (gated_verdict c args s) as Hg.
  destruct (verdictW c args s) as [|v]; destruct Hg as [g Hg];
    rewrite Hg in Hspec; simpl in Hspec;
    rewrite Htr, !target_calls_app, Hspec; simpl;
    (split; [done|]); (split; [|done]);
    destruct (registry s c !! resolver args); simpl;
    by rewrite ?app_nil_r.
Qed.

(** C3. In every reachable store, let a call of a wrapped function resolve
    to the throttled operation [h].  After any further events, a call of
    the same wrapped function whose arguments have an equal key finds the
    entry retained in the registry, resolves to the same [h] (a cache hit)
    and calls that same operation; the gate it consults works on the
    timing state of [h] as the earlier calls and timers left it.  More
    generally, in any store whatsoever in which the registry still maps
    the key to [h], the call is a cache hit that calls [h] and leaves the
    caches as they are. *)
Theorem same_key_same_instance evs0 (t0 : T) c args1 evs args2 :
  let s0 := runW evs0 (init t0) in
  let s1 := snd (wrapped c args1 s0) in
  let s2 := runW evs s1 in
  let s3 := snd (wrapped c args2 s2) in
  let h := resolvedW c args1 s0 in
  c < length (caches s0) ->
  resolver args1 = resolver args2 ->
  triggers (trace s1) = triggers (trace s0) ++ [h] /\
  registry s2 c !! resolver args2 = Some h /\
  resolvedW c args2 s2 = h /\
  triggers (trace s3) = triggers (trace s2) ++ [h] /\
  lookups (trace s3) = lookups (trace s2) ++ [(c, args2)] /\
  factory_callsW c (resolver args2) (trace s3)
    = factory_callsW c (resolver args2) (trace s2) /\
  (exists i, instances s2 !! h = Some i /\ servingW c args2 s2 = i /\
     verdictW c args2 s2 = fst (gate_call policy (clock s2) (timing i))) /\
  (forall (s : W) i,
     registry s c !! resolver args2 = Some h -> instances s !! h = Some i ->
     caches (snd (wrapped c args2 s)) = caches s /\
     lookups (trace (snd (wrapped c args2 s)))
       = lookups (trace s) ++ [(c, args2)] /\
     triggers (trace (snd (wrapped c args2 s))) = triggers (trace s) ++ [h]).
Proof.
  intros s0 s1 s2 s3 h Hc Hkk.
  pose proof (reachable_wf evs0 t0) as Hwf0. fold s0 in Hwf0.
  destruct (call_ok s0 c args1 Hwf0) as [Hwf1 Hev1]. fold s1 in Hwf1, Hev1.
  destruct (run_ok evs s1 Hwf1) as [Hwf2 Hev2]. fold s2 in Hwf2, Hev2.
  assert (Hc2 : c < length (caches s2)).
  { eapply valid_evolves; [exact Hev2|]. by eapply valid_evolves. }
  pose proof (registered_after_call c args1 s0 Hwf0 Hc) as Hreg1.
  fold s1 h in Hreg1.
  assert (Hreg2 : registry s2 c !! resolver args2 = Some h).
  { apply registry_Some in Hreg1 as (reg & Hcr & Hkr).
    destruct (proj1 Hev2 _ _ Hcr) as (reg' & Hcr' & Hsub).
    apply registry_Some. exists reg'. split; [done|]. rewrite <- Hkk.
    by apply (lookup_weaken _ _ _ _ Hkr Hsub). }
  assert (Hres : resolvedW c args2 s2 = h).
  { unfold resolved. by rewrite Hreg2. }
  split; [by apply triggers_after_call|]. split; [done|]. split; [done|].
  split; [|split; [|split; [|split]]].
  - unfold s3. by rewrite triggers_after_call, Hres.
  - change s3 with (stepW (EvCall c args2) s2).
    rewrite lookups_step by done. simpl. by rewrite decide_True.
  - unfold s3, factory_calls. rewrite trace_after_call, Hreg2 by done.
    rewrite !count_obs_app. unfold count_obs at 2 3. simpl.
    destruct (verdictW c args2 s2); simpl; lia.
  - apply registry_Some in Hreg2 as Hreg2'. destruct Hreg2' as (reg & Hcr & Hkr).
    destruct (proj1 Hwf2 _ _ _ _ Hcr Hkr) as (i & Hi & _).
    exists i. split; [done|].
    assert (Hs : servingW c args2 s2 = i).
    { unfold serving. rewrite Hreg2, Hi. reflexivity. }
    split; [done|]. unfold verdict. by rewrite Hs.
  - intros s i Hr Hi.
    destruct (hit_in_any_store c args2 s h i Hr Hi)
      as (Hcs & o & -> & [->|[argv ->]]);
      by rewrite lookups_app, triggers_app.
Qed.

(** Eviction keeps the invariant of the store. *)
Lemma evict_ok c k (s : W) : wfW s -> wfW (evict c k s).
Proof.
  intros [HA HB].
  assert (Hsub : forall c' r', caches (evict c k s) !! c' = Some r' ->
            exists r, caches s !! c' = Some r /\ r' ⊆ r).
  { intros c' r'. simpl. rewrite list_lookup_alter. case_decide as Hcc.
    - subst c'. destruct (caches s !! c) as [r|]; simpl; [|done].
      intros [= <-]. exists r. split; [done|]. apply delete_subseteq.
    - intros Hr. by exists r'. }
  split.
  - intros c' r' k' h Hc' Hk'. destruct (Hsub _ _ Hc') as (r & Hr & Hs).
    eapply HA; [exact Hr|]. by apply (lookup_weaken _ _ _ _ Hk' Hs).
  - intros c1 c2 r1 r2 k1 k2 h Hc1 Hk1 Hc2 Hk2.
    destruct (Hsub _ _ Hc1) as (q1 & Hq1 & Hs1).
    destruct (Hsub _ _ Hc2) as (q2 & Hq2 & Hs2).
    eapply HB; [exact Hq1| |exact Hq2|].
    + by apply (lookup_weaken _ _ _ _ Hk1 Hs1).
    + by apply (lookup_weaken _ _ _ _ Hk2 Hs2).
Qed.

Lemma act_ok a (s : W) : wfW s -> wfW (actW a s).
Proof.
  intros Hwf. destruct a as [e|c k]; simpl.
  - by apply step_ok.
  - by apply evict_ok.
Qed.

Lemma play_ok acts (s : W) : wfW s -> wfW (playW acts s).
Proof.
  revert s. induction acts as [|a acts IH]; intros s Hwf; [done|].
  simpl. apply IH. by apply act_ok.
Qed.

Lemma length_caches_evict c k (s : W) :
  length (caches (evict c k s)) = length (caches s).
Proof. simpl. by rewrite length_alter. Qed.

Lemma registry_evict c k (s : W) c0 k0 :
  c0 <> c \/ k0 <> k ->
  registry (evict c k s) c0 !! k0 = registry s c0 !! k0.
Proof.
  intros Hne. unfold registry. simpl. rewrite list_lookup_alter.
  case_decide as Hcc; [|done]. subst c0.
  destruct (caches s !! c) as [r|]; simpl; [|done].
  rewrite lookup_delete_ne; [done|]. destruct Hne; congruence.
Qed.

(** What a call adds to the counts of throttler and factory calls. *)
Lemma throttler_calls_after_call c args (s : W) :
  wfW s -> c < length (caches s) ->
  throttler_calls (trace (snd (wrapped c args s))) =
    throttler_calls (trace s) +
    (if registry s c !! resolver args is Some _ then 0 else 1).
Proof.
  intros Hwf Hc. unfold throttler_calls.
  rewrite trace_after_call, !count_obs_app by done.
  destruct (registry s c !! resolver args); unfold count_obs; simpl;
    destruct (verdictW c args s); simpl; lia.
Qed.

Lemma factory_calls_after_call c args (s : W) c0 k0 :
  wfW s -> c < length (caches s) ->
  factory_callsW c0 k0 (trace (snd (wrapped c args s))) =
    factory_callsW c0 k0 (trace s) +
    (if registry s c !! resolver args is Some _ then 0
     else if bool_decide (c = c0 ∧ resolver args = k0) then 1 else 0).
Proof.
  intros Hwf Hc. unfold factory_calls.
  rewrite trace_after_call, !count_obs_app by done.
  destruct (registry s c !! resolver args); unfold count_obs; simpl;
    destruct (verdictW c args s); simpl;
    try case_bool_decide; simpl; lia.
Qed.

(** While an entry is in the registry, no host event calls the factory for
    its key. *)
Lemma factory_calls_registered_step e (s : W) c k h :
  wfW s -> registry s c !! k = Some h ->
  factory_callsW c k (trace (stepW e s)) = factory_callsW c k (trace s).
Proof.
  intros Hwf Hk. destruct e as [|c' a|dt|h']; simpl.
  - unfold factory_calls. rewrite count_obs_app. unfold count_obs. simpl. lia.
  - destruct (decide (c' < length (caches s))) as [Hc|Hc].
    + rewrite factory_calls_after_call by done.
      destruct (registry s c' !! resolver a) eqn:Hr; [lia|].
      case_bool_decide as Hb; [|lia]. destruct Hb as [-> <-]. congruence.
    + by rewrite wrapped_invalid by (apply lookup_ge_None_2; lia).
  - done.
  - unfold factory_calls.
    destruct (trace_after_timer h' s) as (o & -> & [-> | [argv ->]]);
      rewrite count_obs_app; unfold count_obs; simpl; lia.
Qed.

Lemma retained_act a (s : W) c k h :
  wfW s -> retains c k [a] = true -> registry s c !! k = Some h ->
  registry (actW a s) c !! k = Some h /\
  factory_callsW c k (trace (actW a s)) = factory_callsW c k (trace s).
Proof.
  intros Hwf Hret Hk. destruct a as [e|c' k']; simpl.
  - split; [|by eapply factory_calls_registered_step].
    by apply (retained_run [e]).
  - split; [|done]. rewrite registry_evict; [done|].
    simpl in Hret. rewrite andb_true_r in Hret.
    apply negb_true_iff, bool_decide_eq_false in Hret.
    destruct (decide (c = c')) as [->|]; [|by left].
    right. intros ->. by apply Hret.
Qed.

Lemma retained_play acts (s : W) c k h :
  wfW s -> retains c k acts = true -> registry s c !! k = Some h ->
  registry (playW acts s) c !! k = Some h /\
  factory_callsW c k (trace (playW acts s)) = factory_callsW c k (trace s).
Proof.
  revert s. induction acts as [|a acts IH]; intros s Hwf Hret Hk; [done|].
  simpl in Hret. apply andb_true_iff in Hret as [Ha Hacts].
  assert (Ha' : retains c k [a] = true) by (simpl; by rewrite Ha).
  destruct (retained_act a s c k h Hwf Ha' Hk) as [Hk' Hf'].
  destruct (IH (actW a s) (act_ok a s Hwf) Hacts Hk') as [Hk'' Hf''].
  simpl. split; [done|]. by rewrite Hf''.
Qed.

(** C4, as amended.  In every store reachable by host events and
    evictions, a call of a wrapped function calls the factory, and through
    it the throttler, exactly when the key of its arguments is not in the
    registry (novel, or evicted since), and then once.  After the call the
    key is registered, and for as long as the memoizer retains the entry
    (over any host events and any evictions of other entries) the key
    keeps its operation and the factory is not called for it again.  With
    a memoizer that evicts nothing, the factory has been called exactly
    once for each key a call has carried and never for the others. *)
Theorem factory_once_while_retained acts (t0 : T) c args acts' :
  let s := playW acts (init t0) in
  let s' := snd (wrapped c args s) in
  let k := resolver args in
  c < length (caches s) ->
  retains c k acts' = true ->
  throttler_calls (trace s') =
    throttler_calls (trace s) +
    (if registry s c !! k is Some _ then 0 else 1) /\
  factory_callsW c k (trace s') =
    factory_callsW c k (trace s) +
    (if registry s c !! k is Some _ then 0 else 1) /\
  registry (playW acts' s') c !! k = Some (resolvedW c args s) /\
  factory_callsW c k (trace (playW acts' s')) = factory_callsW c k (trace s') /\
  (forall evs k0,
     factory_callsW c k0 (trace (runW evs (init t0))) =
       if key_calledW c k0 (calls_of 0 evs) then 1 else 0).
Proof.
  intros s s' k Hc Hret.
  pose proof (play_ok acts _ (wf_init t0)) as Hwf. fold s in Hwf.
  destruct (call_ok s c args Hwf) as [Hwf' _]. fold s' in Hwf'.
  pose proof (registered_after_call c args s Hwf Hc) as Hreg. fold s' k in Hreg.
  split; [by apply throttler_calls_after_call|]. split.
  { unfold s'. rewrite factory_calls_after_call by done. fold k.
    destruct (registry s c !! k); [done|]. by rewrite bool_decide_eq_true_2. }
  split; [by apply retained_play|]. split; [by eapply retained_play|].
  intros evs k0.
  assert (HJ0 : forall c k, factory_callsW c k (trace (init t0 : W)) =
                  if registry (init t0 : W) c !! k is Some _ then 1 else 0).
  { intros c' k'. unfold registry. simpl. by rewrite lookup_empty. }
  rewrite (factory_calls_run evs _ (wf_init t0) HJ0).
  pose proof (registered_run evs (init t0) c k0 (wf_init t0)) as Hr.
  simpl in Hr.
  destruct (key_calledW c k0 (calls_of 0 evs)).
  - destruct (proj2 Hr) as [h ->]; [by right|done].
  - destruct (registry (runW evs (init t0)) c !! k0) eqn:Hk0; [|done].
    destruct (proj1 Hr) as [[? Hin]|?]; [by eexists| |done].
    unfold registry in Hin. simpl in Hin. by rewrite lookup_empty in Hin.
Qed.

(** C5. In every reachable store, for two keys A and B of one wrapped
    function that differ under the memoizer's equality: the throttled
    operations the two keys resolve to are different ones, and neither a
    call for A (whether it gets through, is suppressed, or makes the target
    throw) nor a timer expiry of A's operation changes the operation
    serving B, its timing state, or the decision its gate takes for B.
    A and B are arbitrary, so the same holds with the roles exchanged. *)
Theorem distinct_keys_independent evs (t0 : T) c argsA argsB :
  let s := runW evs (init t0) in
  let s' := snd (wrapped c argsA s) in
  c < length (caches s) ->
  resolver argsA <> resolver argsB ->
  resolvedW c argsA s' <> resolvedW c argsB s' /\
  servingW c argsB s' = servingW c argsB s /\
  verdictW c argsB s' = verdictW c argsB s /\
  (forall hA, registry s c !! resolver argsA = Some hA ->
     servingW c argsB (snd (fire hA s)) = servingW c argsB s /\
     verdictW c argsB (snd (fire hA s)) = verdictW c argsB s).
Proof.
  intros s s' Hc Hne. pose proof (reachable_wf evs t0) as Hwf. fold s in Hwf.
  destruct (call_ok s c argsA Hwf) as [Hwf' _]. fold s' in Hwf'.
  pose proof (registered_after_call c argsA s Hwf Hc) as HA. fold s' in HA.
  remember (resolvedW c argsA s) as hA eqn:EhA. clear EhA.
  split; [|split; [|split]].
  - unfold resolved at 1. rewrite HA. simpl. unfold resolved.
    destruct (registry s' c !! resolver argsB) as [hB|] eqn:HB; simpl.
    + intros Heq. rewrite Heq in HA.
      by destruct (registry_inj _ _ _ _ _ _ Hwf' HA HB).
    + pose proof (registry_lt _ _ _ _ Hwf' HA). lia.
  - apply call_frame; auto.
  - apply call_frame; auto.
  - intros h HhA. destruct (timer_frame h s) as (Hcs & Hclk & Hins).
    assert (Hserv : servingW c argsB (snd (fire h s)) = servingW c argsB s).
    { apply serving_ext.
      - unfold registry. by rewrite Hcs.
      - intros hB HhB. apply Hins. intros ->.
        by destruct (registry_inj _ _ _ _ _ _ Hwf HhA HhB). }
    split; [done|]. by apply verdict_ext.
Qed.

(** C6. In every reachable store, a call of a wrapped function throws [e]
    if and only if the gate let the call through and the target threw [e]:
    the error is the target's, unchanged, and no other error arises in the
    combinator.  Constructing a wrapped function never throws.  When the
    target runs on a timer expiry instead, what the expiry throws is what
    the target threw. *)
Theorem errors_pass_through evs (t0 : T) c args e :
  let s := runW evs (init t0) in
  c < length (caches s) ->
  (fst (wrapped c args s) = Throw e <->
     verdictW c args s = Invoke /\ target_outcomeW c args s = Throw e) /\
  (exists w, fst (make s) = Ret w) /\
  (forall h i, instances s !! h = Some i ->
     fst (fire h s) = Throw e ->
     fst (func [VArr (captured i)] (tstate s)) = Throw e).
Proof.
  intros s Hc. pose proof (reachable_wf evs t0) as Hwf. fold s in Hwf.
  split; [|split].
  - rewrite wrapped_spec by done. cbv zeta.
    pose proof (gated_verdict c args s) as Hg.
    destruct (verdictW c args s) as [|v]; destruct Hg as [g ->]; simpl.
    + split; [by intros ->|]. by intros [_ ->].
    + split; [done|]. by intros [? _].
  - rewrite make_spec. by eexists.
  - intros h i Hi. rewrite (timer_fire_spec _ _ _ Hi). unfold timed.
    destruct (gate_timer policy (clock s) (timing i)) as [[|] g]; simpl; [|done].
    by destruct (func [VArr (captured i)] (tstate s)) as [[v|e'] t].
Qed.

(** C7. In every reachable store, a call of a wrapped function is:
    resolve the throttled operation through the memoized function, then
    call it in the store the resolution left.  What the call adds to the
    trace is, in this order: the call of the memoized function with
    the call's arguments (with the call of the throttler after it when the
    key is novel), then the call of the throttled operation it resolved to,
    then the target call if the gate lets it through: resolution and
    invocation both happen within the call, in that order.  Over any
    continuation of the run, the calls of the memoized functions recorded
    in the trace are exactly the calls of the wrapped functions, in the
    order the host made them. *)
Theorem calls_in_order evs0 (t0 : T) evs :
  let s := runW evs0 (init t0) in
  lookups (trace (runW evs s)) =
    lookups (trace s) ++ calls_of (length (caches s)) evs /\
  (forall c args, c < length (caches s) ->
     fst (resolve c args s) = Ret (resolvedW c args s) /\
     wrapped c args s =
       call_throttled policy func (resolvedW c args s)
         (snd (resolve c args s)) /\
     trace (snd (wrapped c args s)) =
       trace s ++
       match registry s c !! resolver args with
       | Some h => [OHit c args h]
       | None => [OMiss c args; OThrottler (length (instances s)) args]
       end ++
       OTrigger (resolvedW c args s) ::
       match verdictW c args s with
       | Invoke => [OTarget [VArr (captured (servingW c args s))]]
       | Suppress _ => []
       end).
Proof.
  intros s. pose proof (reachable_wf evs0 t0) as Hwf. fold s in Hwf.
  split; [by apply lookups_run|].
  intros c args Hc. destruct (resolve_then_call c args s Hc) as [Hr Hw].
  split; [done|]. split; [done|]. by apply trace_after_call.
Qed.

(** C8. Construct two wrapped functions from the same target, memoizer and
    throttler, at any two points of a run.  They get different caches,
    each empty at construction.  In every store reached afterwards no
    throttled operation is in both registries, and a call through either
    one changes neither the registry of the other, nor the operation
    serving any key of the other, nor the decision its gate takes -- even
    for the same arguments. *)
Theorem wrappers_independent evs0 (t0 : T) evs1 evs args1 args2 :
  let s0 := runW evs0 (init t0) in
  let c1 := length (caches s0) in
  let sa := runW evs1 (stepW EvWrap s0) in
  let c2 := length (caches sa) in
  let s := runW evs (stepW EvWrap sa) in
  (fst (make s0) = Ret (wrapped c1) /\ fst (make sa) = Ret (wrapped c2)) /\
  (c1 < c2 /\ c2 < length (caches s)) /\
  (registry (stepW EvWrap s0) c1 = ∅ /\ registry (stepW EvWrap sa) c2 = ∅) /\
  (forall k1 k2 h1 h2,
     registry s c1 !! k1 = Some h1 -> registry s c2 !! k2 = Some h2 ->
     h1 <> h2) /\
  (let s' := snd (wrapped c1 args1 s) in
   registry s' c2 = registry s c2 /\
   servingW c2 args2 s' = servingW c2 args2 s /\
   verdictW c2 args2 s' = verdictW c2 args2 s) /\
  (let s' := snd (wrapped c2 args2 s) in
   registry s' c1 = registry s c1 /\
   servingW c1 args1 s' = servingW c1 args1 s /\
   verdictW c1 args1 s' = verdictW c1 args1 s).
Proof.
  intros s0 c1 sa c2 s.
  pose proof (reachable_wf evs0 t0) as Hwf0. fold s0 in Hwf0.
  destruct (step_ok EvWrap s0 Hwf0) as [Hwf0' _].
  destruct (run_ok evs1 _ Hwf0') as [Hwfa Heva]. fold sa in Hwfa, Heva.
  destruct (step_ok EvWrap sa Hwfa) as [Hwfa' _].
  destruct (run_ok evs _ Hwfa') as [Hwf Hev]. fold s in Hwf, Hev.
  assert (H12 : c1 < c2).
  { unfold c2. eapply valid_evolves; [exact Heva|]. simpl.
    rewrite length_app. simpl. unfold c1. lia. }
  assert (H2 : c2 < length (caches s)).
  { eapply valid_evolves; [exact Hev|]. simpl.
    rewrite length_app. simpl. unfold c2. lia. }
  assert (H1 : c1 < length (caches s)) by lia.
  split; [by rewrite !make_spec|]. split; [done|]. split; [|split; [|split]].
  - unfold registry. simpl.
    by rewrite !lookup_app_r, !Nat.sub_diag by done.
  - intros k1 k2 h1 h2 Hk1 Hk2 ->.
    destruct (registry_inj _ _ _ _ _ _ Hwf Hk1 Hk2). lia.
  - intros s'. split; [|apply call_frame; auto with lia].
    unfold s'. rewrite registry_after_call by done.
    destruct (registry s c1 !! resolver args1); [done|].
    by rewrite decide_False by lia.
  - intros s'. split; [|apply call_frame; auto with lia].
    unfold s'. rewrite registry_after_call by done.
    destruct (registry s c2 !! resolver args2); [done|].
    by rewrite decide_False by lia.
Qed.

(** C9. Constructing the combinator calls the memoizer exactly once, at
    construction: the construction adds the one observation [OMemoize c]
    to the trace, allocates the cache [c], creates no throttled operation,
    and returns the wrapped function over [c].  Afterwards the memoizer is
    called only by further constructions, never by a call of a wrapped
    function, and every call of the returned function is a call of the
    memoized function with cache [c]. *)
Theorem memoizer_called_once_at_construction evs0 (t0 : T) evs calls :
  let s0 := runW evs0 (init t0) in
  let c := length (caches s0) in
  let s1 := snd (make s0) in
  fst (make s0) = Ret (wrapped c) /\
  trace s1 = trace s0 ++ [OMemoize c] /\
  memoizer_calls (trace s1) = S (memoizer_calls (trace s0)) /\
  caches s1 = caches s0 ++ [∅] /\
  instances s1 = instances s0 /\
  memoizer_calls (trace (runW evs s1)) = memoizer_calls (trace s1) + wraps evs /\
  (let s2 := runW (map (EvCall c) calls) s1 in
   memoizer_calls (trace s2) = memoizer_calls (trace s1) /\
   lookups (trace s2) = lookups (trace s1) ++ map (fun a => (c, a)) calls).
Proof.
  intros s0 c s1. pose proof (reachable_wf evs0 t0) as Hwf0. fold s0 in Hwf0.
  destruct (step_ok EvWrap s0 Hwf0) as [Hwf1 _].
  change (stepW EvWrap s0) with s1 in Hwf1.
  assert (Hcalls : forall n, c < n ->
            calls_of n (map (EvCall c) calls) = map (fun a => (c, a)) calls
            /\ wraps (map (EvCall c) calls) = 0).
  { intros n Hn. induction calls as [|a calls IH]; [done|]. simpl.
    rewrite decide_True by done. destruct IH as [-> IH]. split; [done|].
    rewrite wraps_cons, IH. reflexivity. }
  repeat split; try reflexivity.
  - unfold s1. rewrite make_spec. simpl. unfold memoizer_calls.
    rewrite count_obs_app. unfold count_obs at 2. simpl. lia.
  - by apply memoizer_calls_run.
  - rewrite memoizer_calls_run by done.
    destruct (Hcalls (S c)) as [_ ->]; lia.
  - rewrite lookups_run by done. f_equal. apply Hcalls. unfold s1.
    rewrite make_spec. simpl. rewrite length_app. simpl. unfold c. lia.
Qed.

(** C10. In every reachable store, a call of a wrapped function with a
    novel key creates the throttled operation for that key and stores it
    in the registry, whatever the gate then decides and whatever the
    target does: the creation precedes the call of the throttled operation
    in the trace, the new operation wraps the closure over this call's
    arguments, and every later call with an equal key resolves to it. *)
Theorem novel_key_registered_regardless evs (t0 : T) c args :
  let s := runW evs (init t0) in
  let s' := snd (wrapped c args s) in
  let h := length (instances s) in
  c < length (caches s) ->
  registry s c !! resolver args = None ->
  registry s' c !! resolver args = Some h /\
  (exists i, instances s' !! h = Some i /\ captured i = args) /\
  (exists o, trace s' =
     trace s ++ OMiss c args :: OThrottler h args :: OTrigger h :: o) /\
  (forall evs' args', resolver args' = resolver args ->
     resolvedW c args' (runW evs' s') = h).
Proof.
  intros s s' h Hc Hk. pose proof (reachable_wf evs t0) as Hwf. fold s in Hwf.
  assert (Hreg : registry s' c !! resolver args = Some h).
  { unfold s'. rewrite registry_after_call, Hk, decide_True by done.
    by rewrite lookup_insert_eq. }
  split; [done|]. split; [|split].
  - unfold s'. rewrite wrapped_spec by done. cbv zeta.
    destruct (gatedW _ s) as [[[r g] t] o]. simpl. rewrite Hk.
    eexists. rewrite lookup_app_r, Nat.sub_diag by done.
    split; [reflexivity|]. unfold serving. by rewrite Hk.
  - unfold s'. rewrite trace_after_call by done. unfold resolved.
    rewrite Hk. simpl. by eexists.
  - intros evs' args' Hkk.
    destruct (call_ok s c args Hwf) as [Hwf' _]. fold s' in Hwf'.
    destruct (run_ok evs' s' Hwf') as [_ [Hev _]].
    apply registry_Some in Hreg as (reg & Hcr & Hkr).
    destruct (Hev _ _ Hcr) as (reg' & Hcr' & Hsub).
    unfold resolved, registry. rewrite Hcr', Hkk. simpl.
    by rewrite (lookup_weaken _ _ _ _ Hkr Hsub).
Qed.

(** *** A further property *)

(** X4. In every reachable store, once a key is registered, a call
    depends on its arguments through the key only: two calls with equal
    keys return the same, run the target on the same array and leave the
    same caches, operations, target state and clock; the arguments
    themselves only show in the recorded lookup. *)
Theorem arguments_beyond_key_ignored evs (t0 : T) c a b h :
  let s := runW evs (init t0) in
  let sa := snd (wrapped c a s) in
  let sb := snd (wrapped c b s) in
  resolver a = resolver b ->
  registry s c !! resolver a = Some h ->
  fst (wrapped c a s) = fst (wrapped c b s) /\
  caches sa = caches sb /\ instances sa = instances sb /\
  tstate sa = tstate sb /\ clock sa = clock sb /\
  target_calls (trace sa) = target_calls (trace sb) /\
  triggers (trace sa) = triggers (trace sb).
Proof.
  intros s sa sb Hk Hr. pose proof (reachable_wf evs t0) as Hwf. fold s in Hwf.
  apply registry_Some in Hr as (reg & Hc & Hka).
  assert (Hkb : reg !! resolver b = Some h) by by rewrite <- Hk.
  destruct (proj1 Hwf _ _ _ _ Hc Hka) as (i & Hi & _).
  unfold sa, sb.
  rewrite (wrapped_hit _ _ _ _ _ _ Hc Hka Hi),
          (wrapped_hit _ _ _ _ _ _ Hc Hkb Hi).
  destruct (gatedW i s) as [[[r g] t] o]. simpl.
  by rewrite !target_calls_app, !triggers_app.
Qed.

End Properties.

(** ** The combinator on concrete collaborators *)

Section Concrete.
Local Open Scope Z_scope.

Local Abbreviation a1 := [VStr "a"; VNum 1].
Local Abbreviation a2 := [VStr "a"; VNum 2].

(** Per-key independence (the documented use): with a leading-edge
    debounce, a call for "a" directly followed by a call for "b" runs the
    counter twice. *)
Example per_key_independence :
  tstate (run memoSetup_resolver (debounce_leading 200) counter
            [EvWrap; EvCall 0 [VStr "a"]; EvCall 0 [VStr "b"]] (init 0)) = 2.
Proof. vm_compute. reflexivity. Qed.

(** Key reuse: the same key twice in quick succession runs the counter
    once; after the window it runs again. *)
Example key_reuse :
  tstate (run memoSetup_resolver (debounce_leading 200) counter
            [EvWrap; EvCall 0 [VStr "a"]; EvCall 0 [VStr "a"]] (init 0)) = 1 /\
  tstate (run memoSetup_resolver (debounce_leading 200) counter
            [EvWrap; EvCall 0 [VStr "a"]; EvCall 0 [VStr "a"];
             EvAdvance 200; EvCall 0 [VStr "a"]] (init 0)) = 2.
Proof. vm_compute. split; reflexivity. Qed.

(** A trailing-edge debounce runs the target on the timer, with the
    closure of the first call. *)
Example deferred_invocation :
  trace (run first_arg_resolver (debounce_trailing 200) echo
           [EvWrap; EvCall 0 a1; EvCall 0 a2; EvAdvance 200; EvTimer 0%nat]
           (init tt))
  = [OMemoize 0; OMiss 0 a1; OThrottler 0 a1; OTrigger 0;
     OHit 0 a2 0; OTrigger 0; OTimer 0; OTarget [VArr a1]].
Proof. vm_compute. reflexivity. Qed.

(** C1. The claim: of two calls with the same key, the target observes
    exactly the argument values of the first.  The code at the calls
    [wrapped("a", 1)] then [wrapped("a", 2)], keyed on the first argument,
    with the identity throttler and the target [(...xs) => xs]: both
    invocations hand the target ONE argument, the array [["a", 1]] captured
    by the first call ([func(args)], line 75), and not the two argument
    values ["a"] and [1] (which [func(...args)] would pass); accordingly
    the target returns [[["a", 1]]] and not [["a", 1]].  The second call's
    arguments do not reach the target. *)
Theorem first_capture_hands_over_the_array :
  let s := run first_arg_resolver no_throttle echo
             [EvWrap; EvCall 0 a1; EvCall 0 a2] (init tt) in
  target_calls (trace s) = [[VArr a1]; [VArr a1]] /\
  target_calls (trace s) <> [a1; a1] /\
  fst (wrappedFunction first_arg_resolver no_throttle echo 0 a2 s)
    = Ret (VArr [VArr a1]).
Proof. vm_compute. split; [reflexivity|]. split; [discriminate|reflexivity]. Qed.

End Concrete.

(** ** The theorems at concrete inputs *)

Section Witnesses.
Local Open Scope Z_scope.

Local Abbreviation a1 := [VStr "a"; VNum 1].
Local Abbreviation a2 := [VStr "a"; VNum 2].
Local Abbreviation b1 := [VStr "b"; VNum 1].

(** A second call for "a" within the window is suppressed and returns the
    result of the last invocation; the counter stays. *)
Lemma pass_through_return_value_witness :
  let s := run memoSetup_resolver (debounce_leading 200) counter
             [EvWrap; EvCall 0 [VStr "a"]] (init 0) in
  (0 < length (caches s))%nat /\
  fst (wrappedFunction memoSetup_resolver (debounce_leading 200) counter
         0%nat [VStr "a"] s) = Ret (VNum 1) /\
  tstate (snd (wrappedFunction memoSetup_resolver (debounce_leading 200)
                 counter 0%nat [VStr "a"] s)) = tstate s.
Proof.
  intros s.
  assert (Hc : (0 < length (caches s))%nat) by (vm_compute; lia).
  split; [exact Hc|].
  pose proof (pass_through_return_value memoSetup_resolver
                (debounce_leading 200) counter
                [EvWrap; EvCall 0 [VStr "a"]] 0 0%nat [VStr "a"] Hc)
    as [_ P].
  vm_compute in P. vm_compute. tauto.
Defined.

Lemma same_key_same_instance_witness :
  let s0 := run first_arg_resolver (debounce_leading 200) counter
              [EvWrap] (init 0) in
  let s1 := snd (wrappedFunction first_arg_resolver (debounce_leading 200)
                   counter 0%nat a1 s0) in
  let s2 := run first_arg_resolver (debounce_leading 200) counter
              [EvAdvance 50; EvCall 0 b1] s1 in
  (0 < length (caches s0))%nat /\
  first_arg_resolver a1 = first_arg_resolver a2 /\
  registry s2 0%nat !! first_arg_resolver a2
    = Some (resolved first_arg_resolver 0%nat a1 s0) /\
  resolved first_arg_resolver 0%nat a2 s2
    = resolved first_arg_resolver 0%nat a1 s0.
Proof.
  intros s0 s1 s2.
  assert (Hc : (0 < length (caches s0))%nat) by (vm_compute; lia).
  assert (Hk : first_arg_resolver a1 = first_arg_resolver a2) by reflexivity.
  split; [exact Hc|]. split; [exact Hk|].
  pose proof (same_key_same_instance first_arg_resolver (debounce_leading 200)
                counter [EvWrap] 0 0%nat a1 [EvAdvance 50; EvCall 0 b1] a2
                Hc Hk) as (_ & P2 & P3 & _).
  split; [exact P2|exact P3].
Defined.

(** C4 as it was stated fails when the memoizer evicts: the key "a" is
    seen, its entry is evicted, and the next call with the same key calls
    the factory again; the new closure holds the later call's arguments. *)
Lemma factory_called_again_after_eviction :
  let s := play first_arg_resolver no_throttle echo
             [Host EvWrap; Host (EvCall 0 a1); Evict 0%nat "a";
              Host (EvCall 0 a2)] (init tt) in
  factory_calls first_arg_resolver 0 "a" (trace s) = 2%nat /\
  throttler_calls (trace s) = 2%nat /\
  target_calls (trace s) = [[VArr a1]; [VArr a2]].
Proof. vm_compute. repeat split; reflexivity. Qed.

Lemma factory_once_while_retained_witness :
  let s := play first_arg_resolver (debounce_leading 200) counter
             [Host EvWrap; Host (EvCall 0 a1); Evict 0%nat "a"] (init 0) in
  let s' := snd (wrappedFunction first_arg_resolver (debounce_leading 200)
                   counter 0%nat a2 s) in
  let acts' := [Host (EvCall 0 b1); Evict 0%nat "b"; Host (EvCall 0 a1)] in
  (0 < length (caches s))%nat /\
  retains 0 (first_arg_resolver a2) acts' = true /\
  throttler_calls (trace s') =
    (throttler_calls (trace s) +
     (if registry s 0%nat !! first_arg_resolver a2 is Some _ then 0 else 1))%nat /\
  factory_calls first_arg_resolver 0 (first_arg_resolver a2)
    (trace (play first_arg_resolver (debounce_leading 200) counter acts' s'))
  = factory_calls first_arg_resolver 0 (first_arg_resolver a2) (trace s').
Proof.
  intros s s' acts'.
  assert (Hc : (0 < length (caches s))%nat) by (vm_compute; lia).
  assert (Hr : retains 0 (first_arg_resolver a2) acts' = true)
    by (vm_compute; reflexivity).
  split; [exact Hc|]. split; [exact Hr|].
  destruct (factory_once_while_retained first_arg_resolver
              (debounce_leading 200) counter
              [Host EvWrap; Host (EvCall 0 a1); Evict 0%nat "a"] 0 0%nat a2
              acts' Hc Hr) as (P1 & _ & _ & P4 & _).
  split; [exact P1|exact P4].
Defined.

Lemma distinct_keys_independent_witness :
  let s := run memoSetup_resolver (debounce_leading 200) counter
             [EvWrap; EvCall 0 [VStr "a"]; EvCall 0 [VStr "b"]] (init 0) in
  let s' := snd (wrappedFunction memoSetup_resolver (debounce_leading 200)
                   counter 0%nat [VStr "a"] s) in
  (0 < length (caches s))%nat /\
  memoSetup_resolver [VStr "a"] <> memoSetup_resolver [VStr "b"] /\
  registry s 0%nat !! memoSetup_resolver [VStr "a"] = Some 0%nat /\
  verdict memoSetup_resolver (debounce_leading 200) 0 [VStr "b"] s'
    = verdict memoSetup_resolver (debounce_leading 200) 0 [VStr "b"] s /\
  serving memoSetup_resolver (debounce_leading 200) 0 [VStr "b"]
    (snd (timer_fire (debounce_leading 200) counter 0%nat s))
  = serving memoSetup_resolver (debounce_leading 200) 0 [VStr "b"] s.
Proof.
  intros s s'.
  assert (Hc : (0 < length (caches s))%nat) by (vm_compute; lia).
  assert (Hk : memoSetup_resolver [VStr "a"] <> memoSetup_resolver [VStr "b"])
    by (vm_compute; discriminate).
  assert (Hr : registry s 0%nat !! memoSetup_resolver [VStr "a"] = Some 0%nat)
    by (vm_compute; reflexivity).
  split; [exact Hc|]. split; [exact Hk|]. split; [exact Hr|].
  destruct (distinct_keys_independent memoSetup_resolver
              (debounce_leading 200) counter
              [EvWrap; EvCall 0 [VStr "a"]; EvCall 0 [VStr "b"]]
              0 0%nat [VStr "a"] [VStr "b"] Hc Hk) as (_ & _ & P3 & P4).
  split; [exact P3|]. exact (proj1 (P4 0%nat Hr)).
Defined.

(** A throwing target behind a trailing-edge debounce: the call itself is
    suppressed and does not throw; the timer expiry throws what the target
    threw. *)
Lemma errors_pass_through_witness :
  let s := run memoSetup_resolver (debounce_trailing 200) failing
             [EvWrap; EvCall 0 [VStr "a"]; EvAdvance 200] (init tt) in
  (0 < length (caches s))%nat /\
  instances s !! 0%nat = Some (Instance (Some 0, VUndef) (CallFunc [VStr "a"])) /\
  fst (timer_fire (debounce_trailing 200) failing 0%nat s)
    = Throw (VStr "boom") /\
  fst (failing [VArr [VStr "a"]] (tstate s)) = Throw (VStr "boom").
Proof.
  intros s.
  assert (Hc : (0 < length (caches s))%nat) by (vm_compute; lia).
  assert (Hi : instances s !! 0%nat
               = Some (Instance (Some 0, VUndef) (CallFunc [VStr "a"])))
    by (vm_compute; reflexivity).
  assert (Hf : fst (timer_fire (debounce_trailing 200) failing 0%nat s)
               = Throw (VStr "boom")) by (vm_compute; reflexivity).
  split; [exact Hc|]. split; [exact Hi|]. split; [exact Hf|].
  destruct (errors_pass_through memoSetup_resolver (debounce_trailing 200)
              failing [EvWrap; EvCall 0 [VStr "a"]; EvAdvance 200]
              tt 0%nat [VStr "a"] (VStr "boom") Hc) as (_ & _ & P3).
  exact (P3 0%nat _ Hi Hf).
Defined.

Lemma calls_in_order_witness :
  let s := run memoSetup_resolver (debounce_leading 200) counter
             [EvWrap; EvCall 0 [VStr "a"]] (init 0) in
  (0 < length (caches s))%nat /\
  trace (snd (wrappedFunction memoSetup_resolver (debounce_leading 200)
                counter 0%nat [VStr "b"] s))
  = trace s ++ [OMiss 0 [VStr "b"]; OThrottler 1 [VStr "b"]; OTrigger 1;
                OTarget [VArr [VStr "b"]]].
Proof.
  intros s.
  assert (Hc : (0 < length (caches s))%nat) by (vm_compute; lia).
  split; [exact Hc|].
  destruct (calls_in_order memoSetup_resolver (debounce_leading 200) counter
              [EvWrap; EvCall 0 [VStr "a"]] 0 []) as [_ P].
  pose proof (proj2 (proj2 (P 0%nat [VStr "b"] Hc))) as Q.
  vm_compute in Q. vm_compute. exact Q.
Defined.

Lemma wrappers_independent_witness :
  let s := run memoSetup_resolver (debounce_leading 200) counter
             [EvWrap; EvWrap; EvCall 0 [VStr "a"]; EvCall 1 [VStr "a"]]
             (init 0) in
  registry s 0%nat !! "a" = Some 0%nat /\
  registry s 1%nat !! "a" = Some 1%nat /\
  0%nat <> 1%nat.
Proof.
  intros s.
  assert (H0 : registry s 0%nat !! "a" = Some 0%nat)
    by (vm_compute; reflexivity).
  assert (H1 : registry s 1%nat !! "a" = Some 1%nat)
    by (vm_compute; reflexivity).
  split; [exact H0|]. split; [exact H1|].
  destruct (wrappers_independent memoSetup_resolver (debounce_leading 200)
              counter [] 0 [] [EvCall 0 [VStr "a"]; EvCall 1 [VStr "a"]]
              [VStr "a"] [VStr "a"]) as (_ & _ & _ & P & _).
  exact (P "a" "a" 0%nat 1%nat H0 H1).
Defined.

(** A first call that the gate suppresses (trailing-edge debounce) still
    registers the operation for its key. *)
Lemma novel_key_registered_regardless_witness :
  let s := run first_arg_resolver (debounce_trailing 200) counter
             [EvWrap] (init 0) in
  let s' := snd (wrappedFunction first_arg_resolver (debounce_trailing 200)
                   counter 0%nat a1 s) in
  (0 < length (caches s))%nat /\
  registry s 0%nat !! first_arg_resolver a1 = None /\
  first_arg_resolver a2 = first_arg_resolver a1 /\
  verdict first_arg_resolver (debounce_trailing 200) 0 a1 s = Suppress VUndef /\
  registry s' 0%nat !! first_arg_resolver a1 = Some 0%nat /\
  resolved first_arg_resolver 0%nat a2
    (run first_arg_resolver (debounce_trailing 200) counter
       [EvAdvance 10] s') = 0%nat.
Proof.
  intros s s'.
  assert (Hc : (0 < length (caches s))%nat) by (vm_compute; lia).
  assert (Hk : registry s 0%nat !! first_arg_resolver a1 = None)
    by (vm_compute; reflexivity).
  assert (Hkk : first_arg_resolver a2 = first_arg_resolver a1) by reflexivity.
  split; [exact Hc|]. split; [exact Hk|]. split; [exact Hkk|].
  split; [vm_compute; reflexivity|].
  destruct (novel_key_registered_regardless first_arg_resolver
              (debounce_trailing 200) counter [EvWrap] 0 0%nat a1 Hc Hk)
    as (P1 & _ & _ & P4).
  split; [exact P1|]. exact (P4 [EvAdvance 10] a2 Hkk).
Defined.

End Witnesses.

(** ** The further property at a concrete input *)

Section MoreWitnesses.
Local Open Scope Z_scope.

Local Abbreviation a1 := [VStr "a"; VNum 1].
Local Abbreviation a2 := [VStr "a"; VNum 2].

Lemma arguments_beyond_key_ignored_witness :
  let s := run first_arg_resolver (debounce_leading 200) counter
             [EvWrap; EvCall 0 a1] (init 0) in
  first_arg_resolver a1 = first_arg_resolver a2 /\
  registry s 0%nat !! first_arg_resolver a1 = Some 0%nat /\
  fst (wrappedFunction first_arg_resolver (debounce_leading 200) counter
         0%nat a1 s)
  = fst (wrappedFunction first_arg_resolver (debounce_leading 200) counter
           0%nat a2 s).
Proof.
  intros s.
  assert (Hk : first_arg_resolver a1 = first_arg_resolver a2) by reflexivity.
  assert (Hr : registry s 0%nat !! first_arg_resolver a1 = Some 0%nat)
    by (vm_compute; reflexivity).
  split; [exact Hk|]. split; [exact Hr|].
  exact (proj1 (arguments_beyond_key_ignored first_arg_resolver
                  (debounce_leading 200) counter [EvWrap; EvCall 0 a1]
                  0 0%nat a1 a2 0%nat Hk Hr)).
Defined.

End MoreWitnesses.
